(** * onnxruntime allocator core (core/framework/allocator.h)

    A shallow embedding of the device and memory identity values, the
    overflow-safe array sizing routine, the array allocation helpers and
    the ownership-wrapper factory of [IAllocator], followed by the
    properties stated about them. *)

From Stdlib Require Import ZArith Lia String Ascii.
From stdpp Require Import base option list gmap pretty strings.

Local Open Scope Z_scope.

(** ** size_t arithmetic *)

Module SizeT.

(** [std::numeric_limits<size_t>::digits] on the 64-bit targets the runtime
    is built for. *)
Definition digits : Z := 64.

Definition modulus : Z := 2 ^ digits.

(** [std::numeric_limits<size_t>::max()] *)
Definition max : Z := modulus - 1.

(** Unsigned arithmetic is performed modulo [2 ^ digits]. *)
Definition wrap (z : Z) : Z := z mod modulus.

Definition add (a b : Z) : Z := wrap (a + b).
Definition sub (a b : Z) : Z := wrap (a - b).
Definition mul (a b : Z) : Z := wrap (a * b).
Definition shl (a b : Z) : Z := wrap (Z.shiftl a b).
Definition shr (a b : Z) : Z := Z.shiftr a b.
Definition and (a b : Z) : Z := Z.land a b.
(** [~x] on a size_t *)
Definition not (a : Z) : Z := wrap (Z.lnot a).

(** The values a [size_t] can hold. *)
Definition in_range (z : Z) : Prop := 0 <= z <= max.

End SizeT.

(** A [size_t] object in memory: [None] while it holds an indeterminate
    value (declared, never written), [Some v] once a value is stored. *)
Definition cell : Type := option Z.

(** ** IAllocator::CalcMemSizeForArrayWithAlignment *)

Section CalcMemSize.

(** The template parameter. *)
Variable alignment : Z.

Definition max_allowed : Z :=
  SizeT.sub (SizeT.shl 1 (SizeT.shr SizeT.digits 1)) alignment.

Definition max_size : Z := SizeT.sub SizeT.max alignment.

Definition alignment_mask : Z := SizeT.sub alignment 1.

(** [max_size / nmemb]; the division is undefined for a zero divisor. *)
Definition max_size_div (nmemb : Z) : option Z :=
  if nmemb =? 0 then None else Some (max_size / nmemb).

(** The body of the routine.  [out] is the content of [*out] on entry;
    the result is [None] when the execution divides by zero, and
    otherwise the returned flag with the content of [*out] on exit.
    The operands of [&&] are evaluated left to right and only as far as
    needed. *)
Definition CalcMemSizeForArrayWithAlignment
    (nmemb size : Z) (out : cell) : option (bool * cell) :=
  c1 ← (if max_allowed <=? nmemb
        then q ← max_size_div nmemb; Some (q <? size)
        else Some false);
  if (c1 : bool) then Some (false, out) else
  c2 ← (if max_allowed <=? size
        then if 0 <? nmemb
             then q ← max_size_div nmemb; Some (q <? size)
             else Some false
        else Some false);
  if (c2 : bool) then Some (false, out) else
  if alignment =? 0
  then Some (true, Some (SizeT.mul size nmemb))
  else Some (true, Some (SizeT.and (SizeT.add (SizeT.mul size nmemb) alignment_mask)
                                   (SizeT.not alignment_mask))).

End CalcMemSize.

(** [IAllocator::CalcMemSizeForArray] *)
Definition CalcMemSizeForArray (nmemb size : Z) (out : cell) : option (bool * cell) :=
  CalcMemSizeForArrayWithAlignment 0 nmemb size out.

(** ** Character strings and the output stream *)

Module CString.

(** The value of a [char] read as [unsigned char]. *)
Definition uchar (c : ascii) : Z := Z.of_N (N_of_ascii c).

(** A [const char*] is either null or points at characters in memory.  The
    characters are given as a [string]; the terminating NUL follows its last
    character, and a NUL inside it ends the C string earlier. *)
Definition pointer : Type := option string.

(** The characters of the C string: everything before the first NUL. *)
Fixpoint c_str (s : string) : string :=
  match s with
  | EmptyString => EmptyString
  | String c r => if uchar c =? 0 then EmptyString else String c (c_str r)
  end.

(** [strcmp] on two non-null arguments: the difference of the first pair of
    characters that differ, read as [unsigned char]; 0 when the terminator
    is reached on both sides.  Only the sign of the result is specified by
    the C library. *)
Fixpoint strcmp (s1 s2 : string) : Z :=
  match s1, s2 with
  | EmptyString, EmptyString => 0
  | EmptyString, String c2 _ => 0 - uchar c2
  | String c1 _, EmptyString => uchar c1 - 0
  | String c1 r1, String c2 r2 =>
      if uchar c1 =? uchar c2
      then if uchar c1 =? 0 then 0 else strcmp r1 r2
      else uchar c1 - uchar c2
  end.

(** [strcmp] on pointers: reading through a null pointer is undefined. *)
Definition strcmp_ptr (p1 p2 : pointer) : option Z :=
  s1 ← p1; s2 ← p2; Some (strcmp s1 s2).

End CString.

(** [std::ostringstream]: the text written so far. *)
Module OStream.

Definition ostringstream : Type := string.

Definition empty : ostringstream := EmptyString.

(** [ostr << "literal"] *)
Definition put_literal (ostr : ostringstream) (s : string) : ostringstream :=
  ostr +:+ s.

(** [ostr << n] for an integer type that is not a character type: decimal
    digits, with a leading minus sign for negative values. *)
Definition put_int (ostr : ostringstream) (n : Z) : ostringstream :=
  ostr +:+ pretty n.

(** [ostr << p] for a [const char*]: the characters up to the terminator.
    The inserter requires a non-null pointer; what a library does with a
    null one is outside the language, and no result is given for it. *)
Definition put_c_str (ostr : ostringstream) (p : CString.pointer) : option ostringstream :=
  s ← p; Some (ostr +:+ CString.c_str s).

Definition str (ostr : ostringstream) : string := ostr.

End OStream.

(** ** OrtDevice *)

Module OrtDevice.

(** [DeviceType] and [MemoryType] are [int8_t], [DeviceId] is [int16_t]; no
    arithmetic is done on them, so they are kept as integers. *)
Definition DeviceType : Type := Z.
Definition MemoryType : Type := Z.
Definition DeviceId : Type := Z.

Definition CPU : DeviceType := 0.
Definition GPU : DeviceType := 1.
Definition FPGA : DeviceType := 2.

Module MemType.
Definition DEFAULT : MemoryType := 0.
Definition CUDA_PINNED : MemoryType := 1.
End MemType.

Record t : Type := mk {
  device_type : DeviceType;
  memory_type : MemoryType;
  device_id : DeviceId
}.

(** [OrtDevice()] *)
Definition default : t := mk CPU MemType.DEFAULT 0.

Definition Type_ (d : t) : DeviceType := device_type d.
Definition MemType_ (d : t) : MemoryType := memory_type d.
Definition Id (d : t) : DeviceId := device_id d.

Definition ToString (d : t) : string :=
  let ostr := OStream.empty in
  let ostr := OStream.put_literal ostr "Device: [" in
  let ostr := OStream.put_literal ostr " type:" in
  let ostr := OStream.put_int ostr (device_type d) in
  let ostr := OStream.put_literal ostr " memory_type:" in
  let ostr := OStream.put_int ostr (memory_type d) in
  let ostr := OStream.put_literal ostr " device_id:" in
  let ostr := OStream.put_int ostr (device_id d) in
  let ostr := OStream.put_literal ostr "]" in
  OStream.str ostr.

(** [operator==] *)
Definition eq (left other : t) : bool :=
  (Id left =? Id other) && (MemType_ left =? MemType_ other) && (Type_ left =? Type_ other).

(** [operator!=] *)
Definition ne (left other : t) : bool := negb (eq left other).

End OrtDevice.

(** ** OrtMemoryInfo *)

Module OrtMemoryInfo.

(** [OrtMemType] and [OrtAllocatorType] are C enumerations declared in the
    C API header; a value is represented by its underlying integer. *)
Definition OrtMemType : Type := Z.
Definition OrtAllocatorType : Type := Z.

Record t : Type := mk {
  name : CString.pointer;
  id : Z;
  mem_type : OrtMemType;
  type : OrtAllocatorType;
  device : OrtDevice.t
}.

(** The constructor: the member initialisers and an empty body.  The default
    arguments ([OrtDevice()], [0], [OrtMemTypeDefault]) are filled in by the
    caller.  The [nonnull] attribute is a declaration for the compiler, not
    a statement that runs. *)
Definition ctor (name_ : CString.pointer) (type_ : OrtAllocatorType)
    (device_ : OrtDevice.t) (id_ : Z) (mem_type_ : OrtMemType) : t :=
  {| name := name_; id := id_; mem_type := mem_type_; type := type_; device := device_ |}.

(** [operator<]; undefined when [strcmp] is reached with a null name. *)
Definition lt (this other : t) : option bool :=
  if negb (type this =? type other) then Some (type this <? type other)
  else if negb (mem_type this =? mem_type other) then Some (mem_type this <? mem_type other)
  else if negb (id this =? id other) then Some (id this <? id other)
  else c ← CString.strcmp_ptr (name this) (name other); Some (c <? 0).

(** [operator==]; the operands of [&&] are evaluated left to right, so
    [strcmp] is reached only when the three tags agree. *)
Definition eq (left other : t) : option bool :=
  if (mem_type left =? mem_type other) && (type left =? type other) && (id left =? id other)
  then c ← CString.strcmp_ptr (name left) (name other); Some (c =? 0)
  else Some false.

(** [operator!=] *)
Definition ne (lhs rhs : t) : option bool := negb <$> eq lhs rhs.

Definition ToString (m : t) : option string :=
  let ostr := OStream.empty in
  let ostr := OStream.put_literal ostr "OrtMemoryInfo: [" in
  let ostr := OStream.put_literal ostr " name:" in
  ostr ← OStream.put_c_str ostr (name m);
  let ostr := OStream.put_literal ostr " id:" in
  let ostr := OStream.put_int ostr (id m) in
  let ostr := OStream.put_literal ostr " mem_type:" in
  let ostr := OStream.put_int ostr (mem_type m) in
  let ostr := OStream.put_literal ostr " type:" in
  let ostr := OStream.put_int ostr (type m) in
  let ostr := OStream.put_literal ostr "]" in
  Some (OStream.str ostr).

End OrtMemoryInfo.

(** The names of the memory of the built-in providers (namespace
    [onnxruntime]). *)
Module ProviderNames.

Definition CPU : string := "Cpu".
Definition CUDA : string := "Cuda".
Definition CUDA_PINNED : string := "CudaPinned".
Definition TRT : string := "Tensorrt".
Definition TRT_PINNED : string := "TensorrtPinned".

(** In the order of their declaration. *)
Definition all : list string := [CPU; CUDA; CUDA_PINNED; TRT; TRT_PINNED].

End ProviderNames.

(** ** The allocator interface and the objects that implement it *)

(** A raw address; [nullptr] is address 0. *)
Definition ptr : Type := Z.
Definition nullptr : ptr := 0.

(** The pure virtual members of [IAllocator].  An implementation is a type of
    object states with the three member functions; [Alloc] and [Free] may
    change the state of the object. *)
Class IAllocator (A : Type) : Type := {
  Alloc : A -> Z -> ptr * A;
  Free : A -> ptr -> A;
  Info : A -> OrtMemoryInfo.t
}.

(** The element type [T] of [MakeUniquePtr<T>]: [void], or an object type
    with its [sizeof]. *)
Inductive elem_type : Type :=
  | T_void
  | T_object (size_of : Z).

Definition is_void (T : elem_type) : bool :=
  match T with T_void => true | T_object _ => false end.

(** the size of a pointer to void *)
Definition sizeof_pointer : Z := SizeT.digits / 8.

(** The size of [std::conditional<std::is_void<T>::value, void *, T>::type] *)
Definition sizeof_conditional (T : elem_type) : Z :=
  match T with T_void => sizeof_pointer | T_object sz => sz end.

(** Where an allocator object lives. *)
Definition loc : Type := positive.

(** [std::shared_ptr<IAllocator>]: empty, or sharing ownership of the
    allocator at a location. *)
Definition shared_ptr : Type := option loc.

(** What can be observed of a run: calls of the virtual members, and the
    deletion of an allocator whose last owner went away. *)
Inductive event : Type :=
  | EvAlloc (this : loc) (size : Z) (result : ptr)
  | EvFree (this : loc) (p : ptr)
  | EvDelete (this : loc).

(** The deleter of an [IAllocatorUniquePtr<T>], a [std::function] taking a [T] pointer:
    empty, or the lambda of [MakeUniquePtr] with its captured copy of
    [allocator]. *)
Inductive deleter : Type :=
  | Deleter_empty
  | Deleter_lambda (allocator : loc).

(** [IAllocatorUniquePtr<T>] *)
Record IAllocatorUniquePtr : Type := mk_unique_ptr {
  get : ptr;
  get_deleter : deleter
}.

(** [IAllocatorUniquePtr<T>(nullptr)] *)
Definition empty_unique_ptr : IAllocatorUniquePtr := mk_unique_ptr nullptr Deleter_empty.

Section World.

Context {A : Type} `{!IAllocator A}.

(** The control block of a [shared_ptr]: the managed object and the number
    of owners. *)
Record ctrl : Type := mk_ctrl {
  object : A;
  use_count : nat
}.

(** The allocators that are alive, and the events so far. *)
Record world : Type := mk_world {
  heap : gmap loc ctrl;
  trace : list event
}.

(** Computations over the world; [None] is a run that does not continue
    normally: undefined behaviour (a member call on an allocator that is
    gone, a division by zero) or an exception (calling an empty
    [std::function] throws [std::bad_function_call]). *)
Definition M (X : Type) : Type := world -> option (X * world).

Definition ret {X} (x : X) : M X := fun w => Some (x, w).

Definition bind {X Y} (m : M X) (k : X -> M Y) : M Y :=
  fun w => match m w with
           | Some (x, w') => k x w'
           | None => None
           end.

Definition undefined {X} : M X := fun _ => None.

Definition lift {X} (o : option X) : M X :=
  fun w => match o with Some x => Some (x, w) | None => None end.

(** [this->Alloc(size)] through the virtual table. *)
Definition call_Alloc (this : loc) (size : Z) : M ptr :=
  fun w =>
    match heap w !! this with
    | None => None
    | Some c =>
        let '(p, a) := Alloc (object c) size in
        Some (p, mk_world (<[this := mk_ctrl a (use_count c)]> (heap w))
                          (trace w ++ [EvAlloc this size p]))
    end.

(** The result of [this->Alloc(size)] and the world after it, for an
    allocator that is alive with control block [c]. *)
Definition after_Alloc (w : world) (this : loc) (c : ctrl) (size : Z) : ptr * world :=
  let r := Alloc (object c) size in
  (r.1, mk_world (<[this := mk_ctrl r.2 (use_count c)]> (heap w))
                 (trace w ++ [EvAlloc this size r.1])).

(** [this->Free(p)] through the virtual table. *)
Definition call_Free (this : loc) (p : ptr) : M unit :=
  fun w =>
    match heap w !! this with
    | None => None
    | Some c =>
        Some (tt, mk_world (<[this := mk_ctrl (Free (object c) p) (use_count c)]> (heap w))
                           (trace w ++ [EvFree this p]))
    end.

(** Copying a non-empty [shared_ptr]: one more owner. *)
Definition shared_ptr_copy (l : loc) : M unit :=
  fun w =>
    match heap w !! l with
    | None => None
    | Some c =>
        Some (tt, mk_world (<[l := mk_ctrl (object c) (S (use_count c))]> (heap w)) (trace w))
    end.

(** Destroying a non-empty [shared_ptr]: one owner fewer, and the
    allocator is deleted with its last owner. *)
Definition shared_ptr_release (l : loc) : M unit :=
  fun w =>
    match heap w !! l with
    | None => None
    | Some c =>
        match use_count c with
        | O => None
        | S O => Some (tt, mk_world (delete l (heap w)) (trace w ++ [EvDelete l]))
        | S n => Some (tt, mk_world (<[l := mk_ctrl (object c) n]> (heap w)) (trace w))
        end
    end.

(** [n] owners go away one after the other. *)
Fixpoint release_owners (n : nat) (l : loc) : M unit :=
  match n with
  | O => ret tt
  | S n' => bind (shared_ptr_release l) (fun _ => release_owners n' l)
  end.

(** [IAllocator::AllocArrayWithAlignment<alignment>]; [len] is declared
    without an initial value. *)
Definition AllocArrayWithAlignment (alignment : Z) (this : loc) (nmemb size : Z) : M ptr :=
  bind (lift (CalcMemSizeForArrayWithAlignment alignment nmemb size None)) (fun r =>
    match r with
    | (false, _) => ret nullptr
    | (true, len) => bind (lift len) (fun len => call_Alloc this len)
    end).

(** [IAllocator::AllocArray] *)
Definition AllocArray (this : loc) (nmemb size : Z) : M ptr :=
  bind (lift (CalcMemSizeForArray nmemb size None)) (fun r =>
    match r with
    | (false, _) => ret nullptr
    | (true, len) => bind (lift len) (fun len => call_Alloc this len)
    end).

(** [IAllocator::MakeUniquePtr<T>].  The parameter [allocator] is passed by
    value: the function owns it and destroys it when it returns.  The
    lambda captures a copy of it. *)
Definition MakeUniquePtr (T : elem_type) (allocator : shared_ptr) (count_or_bytes : Z)
    : M IAllocatorUniquePtr :=
  match allocator with
  | None => ret empty_unique_ptr
  | Some l =>
      let alloc_size : cell := Some count_or_bytes in
      bind (if negb (is_void T)
            then lift (CalcMemSizeForArray count_or_bytes (sizeof_conditional T) alloc_size)
            else ret (true, alloc_size)) (fun r =>
        match r with
        | (false, _) =>
            bind (shared_ptr_release l) (fun _ => ret empty_unique_ptr)
        | (true, alloc_size) =>
            bind (lift alloc_size) (fun alloc_size =>
            bind (call_Alloc l alloc_size) (fun p =>
            bind (shared_ptr_copy l) (fun _ =>
            bind (shared_ptr_release l) (fun _ =>
            ret (mk_unique_ptr p (Deleter_lambda l))))))
        end)
  end.

(** Calling the deleter on a pointer: the lambda runs
    [allocator->Free(ptr)]; calling an empty [std::function] throws. *)
Definition call_deleter (d : deleter) (p : ptr) : M unit :=
  match d with
  | Deleter_empty => undefined
  | Deleter_lambda l => call_Free l p
  end.

(** Destroying the deleter destroys what the lambda captured. *)
Definition destroy_deleter (d : deleter) : M unit :=
  match d with
  | Deleter_empty => ret tt
  | Deleter_lambda l => shared_ptr_release l
  end.

(** The destructor of the handle ([std::unique_ptr]): the deleter is called
    on the pointer unless it is null, then the deleter is destroyed. *)
Definition destroy_unique_ptr (h : IAllocatorUniquePtr) : M unit :=
  bind (if get h =? nullptr then ret tt else call_deleter (get_deleter h) (get h))
       (fun _ => destroy_deleter (get_deleter h)).

End World.

Arguments ctrl A : clear implicits.
Arguments world A : clear implicits.
Arguments M A X : clear implicits.

(** A small implementation of the interface to run the code above on: it
    hands out consecutive addresses starting at 4096, refuses requests
    larger than its capacity, and counts the bytes handed out and the calls
    of [Free]. *)
Module Arena.

Record t : Type := mk {
  next : Z;
  capacity : Z;
  frees : Z
}.

Definition info : OrtMemoryInfo.t :=
  OrtMemoryInfo.ctor (Some "Cpu"%string) 0 OrtDevice.default 0 0.

#[global] Instance allocator : IAllocator t := {|
  Alloc a size :=
    if size <=? capacity a
    then (next a, mk (next a + Z.max size 1) (capacity a - size) (frees a))
    else (nullptr, a);
  Free a p := mk (next a) (capacity a) (frees a + 1);
  Info _ := info
|}.

Definition fresh : t := mk 4096 65536 0.

(** A world with one arena at location 1, owned [n] times. *)
Definition one (n : nat) : world t :=
  mk_world {[ 1%positive := mk_ctrl fresh n ]} [].

End Arena.

(** ** Reference notions the properties are stated with *)

Module Spec.

(** A product rounded up to the next multiple of the alignment; an alignment
    of 0 means no rounding. *)
Definition round_up (p alignment : Z) : Z :=
  if alignment =? 0 then p else alignment * ((p + alignment - 1) / alignment).

(** Alignments the sizing routine is documented for: 0, or a power of two
    that fits a [size_t]. *)
Definition pow2_or_zero (a : Z) : Prop :=
  a = 0 \/ exists k, 0 <= k < SizeT.digits /\ a = 2 ^ k.

(** Alignments below [2 ^ (digits / 2)], for which [max_allowed] does not
    wrap around. *)
Definition small_alignment (a : Z) : Prop :=
  a = 0 \/ exists k, 0 <= k < SizeT.digits / 2 /\ a = 2 ^ k.

(** The sizing routine returns [true] from the given content of [*out]. *)
Definition returns_true (alignment nmemb size : Z) (out : cell) : Prop :=
  exists o, CalcMemSizeForArrayWithAlignment alignment nmemb size out = Some (true, o).

(** Lexicographic order on character sequences, characters compared as
    [unsigned char]; a proper prefix comes first. *)
Inductive lex_lt : string -> string -> Prop :=
  | lex_lt_prefix c r : lex_lt EmptyString (String c r)
  | lex_lt_head c1 r1 c2 r2 :
      CString.uchar c1 < CString.uchar c2 -> lex_lt (String c1 r1) (String c2 r2)
  | lex_lt_tail c r1 r2 : lex_lt r1 r2 -> lex_lt (String c r1) (String c r2).

(** The order on memory descriptors: strategy tag, then memory class, then
    id, then name; the first field that differs decides. *)
Definition info_lt (ty1 mt1 id1 : Z) (n1 : string) (ty2 mt2 id2 : Z) (n2 : string) : Prop :=
  ty1 < ty2 \/
  (ty1 = ty2 /\ (mt1 < mt2 \/
  (mt1 = mt2 /\ (id1 < id2 \/
  (id1 = id2 /\ lex_lt n1 n2))))).

(** The rendering of a device as the description gives it. *)
Definition Device_rendering (type memory_type device_id : Z) : string :=
  "Device: [ type:" +:+ pretty type +:+ " memory_type:" +:+ pretty memory_type
    +:+ " device_id:" +:+ pretty device_id +:+ " ]".

(** The rendering of a memory descriptor as the description gives it. *)
Definition MemoryInfo_rendering (name : string) (id mem_type type : Z) : string :=
  "OrtMemoryInfo: [ name:" +:+ name +:+ " id:" +:+ pretty id
    +:+ " mem_type:" +:+ pretty mem_type +:+ " type:" +:+ pretty type +:+ " ]".

(** The renderings with the closing bracket directly after the last field. *)
Definition Device_rendering_tight (type memory_type device_id : Z) : string :=
  "Device: [ type:" +:+ pretty type +:+ " memory_type:" +:+ pretty memory_type
    +:+ " device_id:" +:+ pretty device_id +:+ "]".

Definition MemoryInfo_rendering_tight (name : string) (id mem_type type : Z) : string :=
  "OrtMemoryInfo: [ name:" +:+ name +:+ " id:" +:+ pretty id
    +:+ " mem_type:" +:+ pretty mem_type +:+ " type:" +:+ pretty type +:+ "]".

End Spec.

(** [a < b] and [a == b] hold: the operator returns [true]. *)
Definition less (a b : OrtMemoryInfo.t) : Prop := OrtMemoryInfo.lt a b = Some true.
Definition equal (a b : OrtMemoryInfo.t) : Prop := OrtMemoryInfo.eq a b = Some true.

(** The same descriptor bound to another device. *)
Definition with_device (m : OrtMemoryInfo.t) (d : OrtDevice.t) : OrtMemoryInfo.t :=
  OrtMemoryInfo.mk (OrtMemoryInfo.name m) (OrtMemoryInfo.id m)
    (OrtMemoryInfo.mem_type m) (OrtMemoryInfo.type m) d.

(** [a != b] holds. *)
Definition differ (a b : OrtMemoryInfo.t) : Prop := OrtMemoryInfo.ne a b = Some true.

(** A character does not occur in a string. *)
Fixpoint no_char (b : ascii) (s : string) : Prop :=
  match s with
  | EmptyString => True
  | String c r => c <> b /\ no_char b r
  end.

(** * Properties *)

(** ** The sizing routine on the scenarios of the description *)

Example sizeFor_10_20 :
  CalcMemSizeForArrayWithAlignment 0 10 20 None = Some (true, Some 200).
Proof. reflexivity. Qed.

Example sizeFor_align16_1_10 :
  CalcMemSizeForArrayWithAlignment 16 1 10 None = Some (true, Some 16).
Proof. reflexivity. Qed.

Example sizeFor_max_2 :
  CalcMemSizeForArrayWithAlignment 0 SizeT.max 2 (Some 7) = Some (false, Some 7).
Proof. reflexivity. Qed.

(** ** Facts about the sizing routine *)

Lemma small_alignment_bound a : Spec.small_alignment a -> 0 <= a < 2 ^ 32.
Proof.
  intros [-> | (k & Hk & ->)]; [lia |].
  change (SizeT.digits / 2) with 32 in Hk.
  split; [apply Z.pow_nonneg; lia | apply Z.pow_lt_mono_r; lia].
Qed.

Lemma round_up_spec p a :
  0 < a -> p <= Spec.round_up p a < p + a /\ (a | Spec.round_up p a).
Proof.
  intros Ha. unfold Spec.round_up.
  destruct (Z.eqb_spec a 0) as [-> | _]; [lia |].
  pose proof (Z.div_mod (p + a - 1) a ltac:(lia)) as Hdm.
  pose proof (Z.mod_pos_bound (p + a - 1) a Ha) as Hm.
  split; [lia |]. exists ((p + a - 1) / a). lia.
Qed.

Lemma max_allowed_small a :
  0 <= a < 2 ^ 32 -> max_allowed a = 2 ^ 32 - a.
Proof.
  intros Ha. unfold max_allowed, SizeT.sub, SizeT.shl, SizeT.shr, SizeT.wrap.
  change (Z.shiftr SizeT.digits 1) with 32.
  change (Z.shiftl 1 32) with (2 ^ 32).
  change SizeT.modulus with (2 ^ 64).
  rewrite (Z.mod_small (2 ^ 32)) by lia.
  apply Z.mod_small. lia.
Qed.

Lemma max_size_eq a :
  0 <= a <= SizeT.max -> max_size a = SizeT.max - a.
Proof.
  intros Ha. unfold max_size, SizeT.sub, SizeT.wrap.
  apply Z.mod_small. unfold SizeT.max in *. lia.
Qed.

Lemma div_lt_iff m n s : 0 < n -> (m / n <? s) = (m <? n * s).
Proof.
  intros Hn.
  pose proof (Z.div_mod m n ltac:(lia)) as Hdm.
  pose proof (Z.mod_pos_bound m n Hn) as Hm.
  destruct (Z.ltb_spec (m / n) s), (Z.ltb_spec m (n * s)); try done; nia.
Qed.

(** The bit mask keeps the multiple of [2 ^ k] below its operand. *)
Lemma mask_round_down k x :
  0 <= k < SizeT.digits -> 0 <= x < SizeT.modulus ->
  SizeT.and x (SizeT.not (alignment_mask (2 ^ k))) = 2 ^ k * (x / 2 ^ k).
Proof.
  intros Hk Hx.
  assert (Hpow : 0 < 2 ^ k < SizeT.modulus).
  { split; [apply Z.pow_pos_nonneg; lia | apply Z.pow_lt_mono_r; lia]. }
  assert (Hmask : alignment_mask (2 ^ k) = Z.ones k).
  { unfold alignment_mask, SizeT.sub, SizeT.wrap.
    rewrite Z.mod_small by lia. rewrite Z.ones_equiv. lia. }
  rewrite Hmask.
  unfold SizeT.and, SizeT.not, SizeT.wrap, SizeT.modulus in *.
  assert (Hd : 0 <= SizeT.digits) by (unfold SizeT.digits; lia).
  rewrite <- Z.land_ones by done.
  rewrite (Z.land_comm (Z.lnot _)), Z.land_assoc, Z.land_ones by done.
  rewrite (Z.mod_small x) by lia.
  rewrite <- Z.ldiff_land, Z.ldiff_ones_r by lia.
  rewrite Z.shiftl_mul_pow2, Z.shiftr_div_pow2 by lia. lia.
Qed.

(** What the routine computes for every alignment below [2 ^ 32]: it
    fails exactly when the product exceeds [max - alignment], leaving
    [*out] alone, and otherwise stores the rounded product. *)
Lemma Calc_small a n s out :
  Spec.small_alignment a -> SizeT.in_range n -> SizeT.in_range s ->
  CalcMemSizeForArrayWithAlignment a n s out =
    if SizeT.max - a <? n * s then Some (false, out)
    else Some (true, Some (Spec.round_up (n * s) a)).
Proof.
  intros Ha Hn Hs.
  pose proof (small_alignment_bound a Ha) as Hab.
  unfold SizeT.in_range in *.
  assert (Hmax : SizeT.max = 2 ^ 64 - 1) by done.
  unfold CalcMemSizeForArrayWithAlignment, max_size_div.
  rewrite max_allowed_small, max_size_eq by lia.
  assert (Hstore :
    (SizeT.max - a <? n * s) = false ->
    (if a =? 0 then Some (true, Some (SizeT.mul s n))
     else Some (true, Some (SizeT.and (SizeT.add (SizeT.mul s n) (alignment_mask a))
                                      (SizeT.not (alignment_mask a))))) =
    Some (true, Some (Spec.round_up (n * s) a))).
  { intros Hfit%Z.ltb_ge.
    assert (Hmul : SizeT.mul s n = n * s).
    { unfold SizeT.mul, SizeT.wrap. rewrite Z.mod_small; [lia |].
      change SizeT.modulus with (2 ^ 64). nia. }
    rewrite Hmul. unfold Spec.round_up.
    destruct (Z.eqb_spec a 0) as [-> | Hne]; [done |].
    destruct Ha as [-> | (k & Hk & ->)]; [done |].
    change (SizeT.digits / 2) with 32 in Hk.
    assert (Hm : alignment_mask (2 ^ k) = 2 ^ k - 1).
    { unfold alignment_mask, SizeT.sub, SizeT.wrap. apply Z.mod_small.
      change SizeT.modulus with (2 ^ 64). lia. }
    assert (Hadd : SizeT.add (n * s) (alignment_mask (2 ^ k)) = n * s + 2 ^ k - 1).
    { rewrite Hm. unfold SizeT.add, SizeT.wrap. rewrite Z.mod_small; [lia |].
      change SizeT.modulus with (2 ^ 64). nia. }
    rewrite Hadd, mask_round_down; [done | change SizeT.digits with 64; lia |].
    change SizeT.modulus with (2 ^ 64). nia. }
  destruct (Z.leb_spec (2 ^ 32 - a) n) as [Hn1 | Hn1].
  - (* nmemb >= max_allowed, hence nmemb > 0 *)
    destruct (Z.eqb_spec n 0) as [-> | Hn0]; [lia |]. simpl.
    rewrite !div_lt_iff by lia.
    destruct (SizeT.max - a <? n * s) eqn:Hov; [done |].
    destruct (2 ^ 32 - a <=? s), (0 <? n); by apply Hstore.
  - simpl.
    destruct (Z.leb_spec (2 ^ 32 - a) s) as [Hs1 | Hs1].
    + destruct (Z.ltb_spec 0 n) as [Hpos | Hzero].
      * destruct (Z.eqb_spec n 0); [lia |]. simpl.
        rewrite div_lt_iff by lia.
        destruct (SizeT.max - a <? n * s) eqn:Hov; [done |]. by apply Hstore.
      * assert (n = 0) as -> by lia.
        assert (Hov : (SizeT.max - a <? 0 * s) = false) by (apply Z.ltb_ge; lia).
        rewrite Hov. by apply Hstore.
    + assert (Hov : (SizeT.max - a <? n * s) = false) by (apply Z.ltb_ge; nia).
      rewrite Hov. by apply Hstore.
Qed.

(** Without alignment the routine is exact: it fails exactly when the
    product does not fit, and stores the product otherwise. *)
Lemma CalcMemSizeForArray_exact n s out :
  SizeT.in_range n -> SizeT.in_range s ->
  CalcMemSizeForArray n s out =
    if SizeT.max <? n * s then Some (false, out) else Some (true, Some (n * s)).
Proof.
  intros Hn Hs. unfold CalcMemSizeForArray.
  rewrite Calc_small by (done || by left).
  by rewrite Z.sub_0_r.
Qed.

(** C1, as stated, fails: with alignment 16, 2^60 - 1 elements of 16 bytes
    give a product of 2^64 - 16, a multiple of 16 that fits a [size_t], and
    yet the routine reports overflow, because it refuses every product above
    [max - alignment]. *)
Lemma sizing_iff_representable_fails :
  Spec.pow2_or_zero 16 /\
  SizeT.in_range (2 ^ 60 - 1) /\ SizeT.in_range 16 /\
  ~ (Spec.returns_true 16 (2 ^ 60 - 1) 16 None <->
     Spec.round_up ((2 ^ 60 - 1) * 16) 16 <= SizeT.max).
Proof.
  split; [right; exists 4; by vm_compute |].
  split; [by vm_compute |]. split; [by vm_compute |].
  intros [_ Hback].
  destruct Hback as [o Ho]; [by vm_compute |].
  vm_compute in Ho. discriminate.
Qed.

(** C1 (amended): for an alignment that is 0 or a power of two below 2^32,
    the routine returns [true] if and only if [nmemb * size] is at most
    [max - alignment]; and whenever it returns [true], the value stored in
    [*out] is [nmemb * size] rounded up to the next multiple of the
    alignment (the product itself for alignment 0), which fits a [size_t]. *)
Theorem sizing_small_alignment (a n s : Z) (out : cell) :
  Spec.small_alignment a -> SizeT.in_range n -> SizeT.in_range s ->
  exists b o,
    CalcMemSizeForArrayWithAlignment a n s out = Some (b, o) /\
    (b = true <-> n * s <= SizeT.max - a) /\
    (b = true ->
       o = Some (Spec.round_up (n * s) a) /\
       Spec.round_up (n * s) a <= SizeT.max /\
       (a = 0 -> o = Some (n * s))).
Proof.
  intros Ha Hn Hs. rewrite Calc_small by done.
  pose proof (small_alignment_bound a Ha) as Hab.
  destruct (Z.ltb_spec (SizeT.max - a) (n * s)) as [Hov | Hfit].
  - exists false, out. split; [done |]. split; [split; [done | lia] | done].
  - exists true, (Some (Spec.round_up (n * s) a)).
    split; [done |]. split; [done |]. intros _.
    split; [done |]. split.
    + destruct (Z.eq_dec a 0) as [-> | Hne].
      * unfold Spec.round_up. simpl. lia.
      * pose proof (round_up_spec (n * s) a ltac:(lia)). lia.
    + intros ->. done.
Qed.

Lemma sizing_small_alignment_witness :
  exists b o,
    CalcMemSizeForArrayWithAlignment 16 1 10 None = Some (b, o) /\
    (b = true <-> 1 * 10 <= SizeT.max - 16) /\
    (b = true ->
       o = Some (Spec.round_up (1 * 10) 16) /\
       Spec.round_up (1 * 10) 16 <= SizeT.max /\
       (16 = 0 -> o = Some (1 * 10))).
Proof.
  apply (sizing_small_alignment 16 1 10 None).
  - right. exists 4. split; [change (SizeT.digits / 2) with 32; lia | reflexivity].
  - unfold SizeT.in_range, SizeT.max, SizeT.modulus, SizeT.digits. lia.
  - unfold SizeT.in_range, SizeT.max, SizeT.modulus, SizeT.digits. lia.
Defined.

(** C2: whatever the alignment, the count and the element size, when the
    routine returns [false] the content of [*out] is what it was on entry. *)
Theorem sizing_failure_leaves_out (a n s : Z) (out o : cell) :
  CalcMemSizeForArrayWithAlignment a n s out = Some (false, o) -> o = out.
Proof.
  unfold CalcMemSizeForArrayWithAlignment.
  destruct (max_allowed a <=? n); simpl.
  - destruct (max_size_div a n) as [q |]; simpl; [| done].
    destruct (q <? s); [congruence |].
    destruct (max_allowed a <=? s), (0 <? n); simpl;
      destruct (a =? 0); try congruence;
      destruct (q <? s); congruence.
  - destruct (max_allowed a <=? s); simpl.
    + destruct (0 <? n); simpl.
      * destruct (max_size_div a n) as [q |]; simpl; [| done].
        destruct (q <? s); [congruence |]. destruct (a =? 0); congruence.
      * destruct (a =? 0); congruence.
    + destruct (a =? 0); congruence.
Qed.

Lemma sizing_failure_leaves_out_witness :
  CalcMemSizeForArrayWithAlignment 0 SizeT.max 2 (Some 7) = Some (false, Some 7) /\
  Some 7 = Some 7.
Proof.
  split; [reflexivity |].
  apply (sizing_failure_leaves_out 0 SizeT.max 2 (Some 7) (Some 7)). reflexivity.
Defined.

(** C10 at the input where the code departs from it: with alignment 2^32,
    [max_allowed] is 0, so a count of 0 passes the first comparison and
    [max_size / nmemb] divides by zero; nothing is returned. *)
Theorem sizing_zero_count_alignment_half_word (s : Z) (out : cell) :
  Spec.pow2_or_zero (2 ^ 32) /\
  max_allowed (2 ^ 32) = 0 /\
  CalcMemSizeForArrayWithAlignment (2 ^ 32) 0 s out = None.
Proof.
  split; [right; exists 32; by vm_compute |].
  split; reflexivity.
Qed.

(** For every other alignment that is 0 or a power of two, a count of 0
    gives [true] and stores 0, whatever the element size. *)
Lemma sizing_zero_count_other_alignments (a s : Z) (out : cell) :
  Spec.pow2_or_zero a -> a <> 2 ^ 32 -> SizeT.in_range s ->
  CalcMemSizeForArrayWithAlignment a 0 s out = Some (true, Some 0).
Proof.
  intros Ha Hne Hs.
  assert (Hcases : Spec.small_alignment a \/
                   exists k, 32 < k < 64 /\ a = 2 ^ k).
  { destruct Ha as [-> | (k & Hk & ->)]; [left; by left |].
    change SizeT.digits with 64 in Hk.
    destruct (Z_lt_ge_dec k 32).
    { left; right; exists k. change (SizeT.digits / 2) with 32. split; [lia | done]. }
    right. exists k. split; [| done].
    assert (k <> 32) by (intros ->; done). lia. }
  destruct Hcases as [Hsmall | (k & Hk & ->)].
  - rewrite Calc_small; [| done | by vm_compute | done].
    pose proof (small_alignment_bound a Hsmall) as Hab.
    assert (Hfit : (SizeT.max - a <? 0 * s) = false).
    { apply Z.ltb_ge. change SizeT.max with (2 ^ 64 - 1). lia. }
    rewrite Hfit. unfold Spec.round_up.
    destruct (Z.eqb_spec a 0) as [-> | Ha0]; [done |].
    rewrite Z.div_small by lia. do 3 f_equal. lia.
  - assert (Hpow : 2 ^ 32 < 2 ^ k < 2 ^ 64).
    { split; apply Z.pow_lt_mono_r; lia. }
    assert (Hma : max_allowed (2 ^ k) = 2 ^ 64 + 2 ^ 32 - 2 ^ k).
    { unfold max_allowed, SizeT.sub, SizeT.shl, SizeT.shr, SizeT.wrap.
      change (Z.shiftr SizeT.digits 1) with 32.
      change (Z.shiftl 1 32) with (2 ^ 32).
      change SizeT.modulus with (2 ^ 64).
      rewrite (Z.mod_small (2 ^ 32)) by lia.
      symmetry. apply Z.mod_unique_pos with (q := -1); lia. }
    unfold CalcMemSizeForArrayWithAlignment. rewrite Hma.
    destruct (Z.leb_spec (2 ^ 64 + 2 ^ 32 - 2 ^ k) 0); [lia |]. simpl.
    destruct (2 ^ 64 + 2 ^ 32 - 2 ^ k <=? s); simpl;
      (destruct (Z.eqb_spec (2 ^ k) 0); [lia |]).
    all: replace (SizeT.mul s 0) with 0
      by (unfold SizeT.mul; by rewrite Z.mul_0_r).
    all: assert (Hm : alignment_mask (2 ^ k) = 2 ^ k - 1)
      by (unfold alignment_mask, SizeT.sub, SizeT.wrap; apply Z.mod_small;
          change SizeT.modulus with (2 ^ 64); lia).
    all: assert (Hadd : SizeT.add 0 (alignment_mask (2 ^ k)) = 2 ^ k - 1)
      by (rewrite Hm; unfold SizeT.add, SizeT.wrap; apply Z.mod_small;
          change SizeT.modulus with (2 ^ 64); lia).
    all: rewrite Hadd, mask_round_down
      by (change SizeT.digits with 64; change SizeT.modulus with (2 ^ 64); lia).
    all: rewrite Z.div_small by lia; do 3 f_equal; lia.
Qed.

(** ** OrtDevice *)

Example default_device_rendering :
  OrtDevice.ToString OrtDevice.default = "Device: [ type:0 memory_type:0 device_id:0]"%string.
Proof. reflexivity. Qed.

Example pinned_gpu_rendering :
  OrtDevice.ToString (OrtDevice.mk OrtDevice.GPU OrtDevice.MemType.CUDA_PINNED (-1))
  = "Device: [ type:1 memory_type:1 device_id:-1]"%string.
Proof. reflexivity. Qed.

Lemma OrtDevice_eq_fields (a b : OrtDevice.t) :
  OrtDevice.eq a b = true <->
  OrtDevice.Type_ a = OrtDevice.Type_ b /\
  OrtDevice.MemType_ a = OrtDevice.MemType_ b /\
  OrtDevice.Id a = OrtDevice.Id b.
Proof.
  unfold OrtDevice.eq.
  rewrite !andb_true_iff, !Z.eqb_eq. tauto.
Qed.

(** C6: equality of devices is reflexive, symmetric and transitive; it
    holds exactly when kind, memory class and index are pairwise equal, that
    is, when the two values are the same; and [!=] is its negation. *)
Theorem OrtDevice_eq_equivalence (a b c : OrtDevice.t) :
  OrtDevice.eq a a = true /\
  OrtDevice.eq a b = OrtDevice.eq b a /\
  (OrtDevice.eq a b = true -> OrtDevice.eq b c = true -> OrtDevice.eq a c = true) /\
  (OrtDevice.eq a b = true <->
     OrtDevice.Type_ a = OrtDevice.Type_ b /\
     OrtDevice.MemType_ a = OrtDevice.MemType_ b /\
     OrtDevice.Id a = OrtDevice.Id b) /\
  (OrtDevice.eq a b = true <-> a = b) /\
  OrtDevice.ne a b = negb (OrtDevice.eq a b).
Proof.
  split_and!.
  - apply OrtDevice_eq_fields. done.
  - unfold OrtDevice.eq.
    by rewrite (Z.eqb_sym (OrtDevice.Id a)), (Z.eqb_sym (OrtDevice.MemType_ a)),
               (Z.eqb_sym (OrtDevice.Type_ a)).
  - rewrite !OrtDevice_eq_fields. intros (-> & -> & ->) (-> & -> & ->). done.
  - apply OrtDevice_eq_fields.
  - split.
    + intros H%OrtDevice_eq_fields. destruct a, b. simpl in H.
      destruct H as (-> & -> & ->). done.
    + intros ->. apply OrtDevice_eq_fields. done.
  - done.
Qed.

Lemma OrtDevice_eq_equivalence_witness :
  OrtDevice.eq (OrtDevice.mk 1 0 3) (OrtDevice.mk 1 0 3) = true.
Proof.
  apply (OrtDevice_eq_equivalence (OrtDevice.mk 1 0 3) (OrtDevice.mk 1 0 3) (OrtDevice.mk 1 0 3));
    reflexivity.
Defined.

(** ** Renderings *)

Lemma string_app_assoc (s1 s2 s3 : string) : (s1 +:+ s2) +:+ s3 = s1 +:+ (s2 +:+ s3).
Proof.
  induction s1 as [| c s1 IH]; [reflexivity |].
  change (String c ((s1 +:+ s2) +:+ s3) = String c (s1 +:+ (s2 +:+ s3))).
  by rewrite IH.
Qed.

(** C8, as stated, fails: the code writes the closing bracket directly after
    the last field, so the rendering of the default device is not the
    documented one, which has a space before the bracket; likewise for a
    memory descriptor. *)
Lemma rendering_spacing_differs :
  OrtDevice.ToString OrtDevice.default <> Spec.Device_rendering 0 0 0 /\
  OrtMemoryInfo.ToString (OrtMemoryInfo.ctor (Some "Cpu"%string) 0 OrtDevice.default 0 0)
    <> Some (Spec.MemoryInfo_rendering "Cpu" 0 0 0).
Proof. split; vm_compute; discriminate. Qed.

(** C8 (amended): the renderings are
    [Device: [ type:<int> memory_type:<int> device_id:<int>]] and
    [OrtMemoryInfo: [ name:<string> id:<int> mem_type:<int> type:<int>]],
    fields in this order, one space before each field and none before the
    closing bracket; the name is rendered up to its terminator. *)
Theorem ToString_renderings (d : OrtDevice.t) (m : OrtMemoryInfo.t) (s : string) :
  OrtMemoryInfo.name m = Some s ->
  OrtDevice.ToString d =
    Spec.Device_rendering_tight
      (OrtDevice.Type_ d) (OrtDevice.MemType_ d) (OrtDevice.Id d) /\
  OrtMemoryInfo.ToString m =
    Some (Spec.MemoryInfo_rendering_tight (CString.c_str s)
            (OrtMemoryInfo.id m) (OrtMemoryInfo.mem_type m) (OrtMemoryInfo.type m)).
Proof.
  intros Hname. split.
  - unfold OrtDevice.ToString, Spec.Device_rendering_tight,
      OStream.str, OStream.put_int, OStream.put_literal, OStream.empty.
    rewrite !string_app_assoc. reflexivity.
  - unfold OrtMemoryInfo.ToString, Spec.MemoryInfo_rendering_tight,
      OStream.put_c_str, OStream.str, OStream.put_int, OStream.put_literal, OStream.empty.
    rewrite Hname. simpl. rewrite !string_app_assoc. reflexivity.
Qed.

Lemma ToString_renderings_witness :
  OrtDevice.ToString (OrtDevice.mk 1 1 7) =
    Spec.Device_rendering_tight 1 1 7 /\
  OrtMemoryInfo.ToString (OrtMemoryInfo.ctor (Some "Cuda"%string) 1 OrtDevice.default 3 (-1)) =
    Some (Spec.MemoryInfo_rendering_tight (CString.c_str "Cuda") 3 (-1) 1).
Proof.
  apply (ToString_renderings (OrtDevice.mk 1 1 7)
           (OrtMemoryInfo.ctor (Some "Cuda"%string) 1 OrtDevice.default 3 (-1)) "Cuda").
  reflexivity.
Defined.

Example cuda_info_rendering :
  OrtMemoryInfo.ToString (OrtMemoryInfo.ctor (Some "Cuda"%string) 1 OrtDevice.default 3 (-1))
  = Some "OrtMemoryInfo: [ name:Cuda id:3 mem_type:-1 type:1]"%string.
Proof. reflexivity. Qed.

(** ** Character strings *)

Lemma uchar_nonneg c : 0 <= CString.uchar c.
Proof. unfold CString.uchar. lia. Qed.

Lemma uchar_inj c1 c2 : CString.uchar c1 = CString.uchar c2 -> c1 = c2.
Proof.
  unfold CString.uchar. intros H%(inj Z.of_N).
  rewrite <- (ascii_N_embedding c1), <- (ascii_N_embedding c2). by rewrite H.
Qed.

Lemma strcmp_opp s1 : forall s2, CString.strcmp s2 s1 = - CString.strcmp s1 s2.
Proof.
  induction s1 as [| c1 r1 IH]; intros [| c2 r2]; simpl; try lia.
  rewrite (Z.eqb_sym (CString.uchar c2)).
  destruct (Z.eqb_spec (CString.uchar c1) (CString.uchar c2)) as [Heq | Hne]; [| lia].
  rewrite Heq. destruct (CString.uchar c2 =? 0); [done | apply IH].
Qed.

Lemma lex_lt_empty_r s : ~ Spec.lex_lt s EmptyString.
Proof. inversion 1. Qed.

Lemma strcmp_neg_lex s1 : forall s2,
  CString.strcmp s1 s2 < 0 <-> Spec.lex_lt (CString.c_str s1) (CString.c_str s2).
Proof.
  induction s1 as [| c1 r1 IH]; intros [| c2 r2]; simpl.
  - split; [lia | inversion 1].
  - pose proof (uchar_nonneg c2).
    destruct (Z.eqb_spec (CString.uchar c2) 0); split; try lia.
    + inversion 1.
    + intros _. constructor.
  - pose proof (uchar_nonneg c1). split; [lia |].
    intros H'. by apply lex_lt_empty_r in H'.
  - pose proof (uchar_nonneg c1). pose proof (uchar_nonneg c2).
    destruct (Z.eqb_spec (CString.uchar c1) (CString.uchar c2)) as [Heq | Hne].
    + apply uchar_inj in Heq as ->.
      destruct (Z.eqb_spec (CString.uchar c2) 0).
      * split; [lia | inversion 1].
      * rewrite IH. split; [by apply Spec.lex_lt_tail |].
        inversion 1; subst; [lia | done].
    + destruct (Z.eqb_spec (CString.uchar c1) 0), (Z.eqb_spec (CString.uchar c2) 0);
        try lia.
      * split; [intros _; constructor | lia].
      * split; [lia | intros H'; by apply lex_lt_empty_r in H'].
      * split; [intros; apply Spec.lex_lt_head; lia |].
        inversion 1; subst; [lia | done].
Qed.

Lemma strcmp_zero s1 : forall s2,
  CString.strcmp s1 s2 = 0 <-> CString.c_str s1 = CString.c_str s2.
Proof.
  induction s1 as [| c1 r1 IH]; intros [| c2 r2]; simpl.
  - done.
  - destruct (Z.eqb_spec (CString.uchar c2) 0); split; try done; lia.
  - destruct (Z.eqb_spec (CString.uchar c1) 0); split; try done; lia.
  - destruct (Z.eqb_spec (CString.uchar c1) (CString.uchar c2)) as [Heq | Hne].
    + apply uchar_inj in Heq as ->.
      destruct (Z.eqb_spec (CString.uchar c2) 0); [done |].
      rewrite IH. split; [by intros -> | by intros [= ->]].
    + destruct (Z.eqb_spec (CString.uchar c1) 0), (Z.eqb_spec (CString.uchar c2) 0);
        split; try done; try lia.
      intros [= -> _]. done.
Qed.

Lemma lex_lt_irrefl s : ~ Spec.lex_lt s s.
Proof. induction s; inversion 1; subst; [lia | done]. Qed.

Lemma lex_lt_trans s1 : forall s2 s3,
  Spec.lex_lt s1 s2 -> Spec.lex_lt s2 s3 -> Spec.lex_lt s1 s3.
Proof.
  induction s1 as [| c1 r1 IH]; intros s2 s3 H12 H23.
  - inversion H12; subst; inversion H23; subst; constructor.
  - inversion H12; subst; inversion H23; subst.
    + apply Spec.lex_lt_head. lia.
    + by apply Spec.lex_lt_head.
    + by apply Spec.lex_lt_head.
    + apply Spec.lex_lt_tail. by eapply IH.
Qed.

Lemma lex_lt_total s1 : forall s2,
  Spec.lex_lt s1 s2 \/ s1 = s2 \/ Spec.lex_lt s2 s1.
Proof.
  induction s1 as [| c1 r1 IH]; intros [| c2 r2].
  - by right; left.
  - left. constructor.
  - right; right. constructor.
  - destruct (Z.lt_trichotomy (CString.uchar c1) (CString.uchar c2)) as [Hlt | [Heq | Hgt]].
    + left. by apply Spec.lex_lt_head.
    + apply uchar_inj in Heq as ->.
      destruct (IH r2) as [H | [-> | H]].
      * left. by apply Spec.lex_lt_tail.
      * by right; left.
      * right; right. by apply Spec.lex_lt_tail.
    + right; right. by apply Spec.lex_lt_head.
Qed.

(** ** OrtMemoryInfo *)

Section Order.

Import OrtMemoryInfo.

Variables (a b : OrtMemoryInfo.t) (na nb : string).
Hypothesis Ha : name a = Some na.
Hypothesis Hb : name b = Some nb.

Lemma lt_defined : exists r, OrtMemoryInfo.lt a b = Some r.
Proof.
  unfold OrtMemoryInfo.lt, CString.strcmp_ptr. rewrite Ha, Hb. simpl.
  repeat (match goal with |- context [if ?c then _ else _] => destruct c end);
    eauto.
Qed.

Lemma eq_defined : exists r, OrtMemoryInfo.eq a b = Some r.
Proof.
  unfold OrtMemoryInfo.eq, CString.strcmp_ptr. rewrite Ha, Hb. simpl.
  destruct (_ && _); eauto.
Qed.

Lemma less_iff :
  less a b <->
  Spec.info_lt (type a) (mem_type a) (id a) (CString.c_str na)
               (type b) (mem_type b) (id b) (CString.c_str nb).
Proof.
  unfold less, OrtMemoryInfo.lt, CString.strcmp_ptr, Spec.info_lt.
  rewrite Ha, Hb. simpl. rewrite <- strcmp_neg_lex.
  destruct (Z.eqb_spec (type a) (type b)) as [Et | Et]; simpl.
  2:{ destruct (Z.ltb_spec (type a) (type b)); intuition (try lia; try congruence). }
  destruct (Z.eqb_spec (mem_type a) (mem_type b)) as [Em | Em]; simpl.
  2:{ destruct (Z.ltb_spec (mem_type a) (mem_type b));
        intuition (try lia; try congruence). }
  destruct (Z.eqb_spec (id a) (id b)) as [Ei | Ei]; simpl.
  2:{ destruct (Z.ltb_spec (id a) (id b)); intuition (try lia; try congruence). }
  destruct (Z.ltb_spec (CString.strcmp na nb) 0); intuition (try lia; try congruence).
Qed.

Lemma equal_iff :
  equal a b <->
  mem_type a = mem_type b /\ type a = type b /\ id a = id b /\
  CString.c_str na = CString.c_str nb.
Proof.
  unfold equal, OrtMemoryInfo.eq, CString.strcmp_ptr.
  rewrite Ha, Hb. simpl. rewrite <- strcmp_zero.
  destruct (Z.eqb_spec (mem_type a) (mem_type b)); simpl;
    [| intuition congruence].
  destruct (Z.eqb_spec (type a) (type b)); simpl; [| intuition congruence].
  destruct (Z.eqb_spec (id a) (id b)); simpl; [| intuition congruence].
  destruct (Z.eqb_spec (CString.strcmp na nb) 0); intuition congruence.
Qed.

End Order.

Lemma info_lt_irrefl t m i n : ~ Spec.info_lt t m i n t m i n.
Proof.
  unfold Spec.info_lt. pose proof (lex_lt_irrefl n). intuition lia.
Qed.

Lemma info_lt_trans t1 m1 i1 n1 t2 m2 i2 n2 t3 m3 i3 n3 :
  Spec.info_lt t1 m1 i1 n1 t2 m2 i2 n2 ->
  Spec.info_lt t2 m2 i2 n2 t3 m3 i3 n3 ->
  Spec.info_lt t1 m1 i1 n1 t3 m3 i3 n3.
Proof.
  unfold Spec.info_lt. pose proof (lex_lt_trans n1 n2 n3).
  intuition (subst; first [lia | tauto | (left; lia) | (right; split; [lia |]; left; lia)
                           | (right; split; [lia |]; right; split; [lia |]; left; lia)
                           | idtac]).
Qed.

Lemma info_lt_total t1 m1 i1 n1 t2 m2 i2 n2 :
  Spec.info_lt t1 m1 i1 n1 t2 m2 i2 n2 \/
  (t1 = t2 /\ m1 = m2 /\ i1 = i2 /\ n1 = n2) \/
  Spec.info_lt t2 m2 i2 n2 t1 m1 i1 n1.
Proof.
  unfold Spec.info_lt.
  destruct (Z.lt_trichotomy t1 t2) as [? | [-> | ?]]; [tauto | | tauto].
  destruct (Z.lt_trichotomy m1 m2) as [? | [-> | ?]]; [tauto | | tauto].
  destruct (Z.lt_trichotomy i1 i2) as [? | [-> | ?]]; [tauto | | tauto].
  destruct (lex_lt_total n1 n2) as [? | [-> | ?]]; tauto.
Qed.

Example same_cpu_descriptors :
  let a := OrtMemoryInfo.ctor (Some "Cpu"%string) 0 OrtDevice.default 0 0 in
  let b := OrtMemoryInfo.ctor (Some "Cpu"%string) 0 (OrtDevice.mk 1 0 2) 0 0 in
  OrtMemoryInfo.eq a b = Some true /\
  OrtMemoryInfo.lt a b = Some false /\ OrtMemoryInfo.lt b a = Some false.
Proof. by vm_compute. Qed.

Example name_decides_last :
  OrtMemoryInfo.lt (OrtMemoryInfo.ctor (Some "Cuda"%string) 1 OrtDevice.default 0 0)
                   (OrtMemoryInfo.ctor (Some "CudaPinned"%string) 1 OrtDevice.default 0 0)
  = Some true.
Proof. reflexivity. Qed.

(** C5: for descriptors whose names are non-null strings, both operators
    return, and exactly one of [a < b], [b < a], [a == b] holds; [<] compares
    the strategy tag, then the memory class, then the id, then the names
    lexicographically, the first field that differs deciding; [==] compares
    memory class, strategy tag, id and the characters of the names; the
    device takes part in neither; and [<] is a strict weak ordering:
    irreflexive, transitive, with a transitive incomparability. *)
Theorem OrtMemoryInfo_strict_weak_order
    (a b c : OrtMemoryInfo.t) (na nb nc : string) :
  OrtMemoryInfo.name a = Some na ->
  OrtMemoryInfo.name b = Some nb ->
  OrtMemoryInfo.name c = Some nc ->
  (exists r, OrtMemoryInfo.lt a b = Some r) /\
  (exists r, OrtMemoryInfo.eq a b = Some r) /\
  ((less a b /\ ~ less b a /\ ~ equal a b) \/
   (~ less a b /\ less b a /\ ~ equal a b) \/
   (~ less a b /\ ~ less b a /\ equal a b)) /\
  (less a b <->
     Spec.info_lt
       (OrtMemoryInfo.type a) (OrtMemoryInfo.mem_type a) (OrtMemoryInfo.id a) (CString.c_str na)
       (OrtMemoryInfo.type b) (OrtMemoryInfo.mem_type b) (OrtMemoryInfo.id b) (CString.c_str nb)) /\
  (equal a b <->
     OrtMemoryInfo.mem_type a = OrtMemoryInfo.mem_type b /\
     OrtMemoryInfo.type a = OrtMemoryInfo.type b /\
     OrtMemoryInfo.id a = OrtMemoryInfo.id b /\
     CString.c_str na = CString.c_str nb) /\
  (forall d,
     OrtMemoryInfo.lt (with_device a d) b = OrtMemoryInfo.lt a b /\
     OrtMemoryInfo.lt a (with_device b d) = OrtMemoryInfo.lt a b /\
     OrtMemoryInfo.eq (with_device a d) b = OrtMemoryInfo.eq a b /\
     OrtMemoryInfo.eq a (with_device b d) = OrtMemoryInfo.eq a b) /\
  ~ less a a /\
  (less a b -> less b c -> less a c) /\
  (~ less a b -> ~ less b a -> ~ less b c -> ~ less c b -> ~ less a c /\ ~ less c a).
Proof.
  intros Ha Hb Hc.
  pose proof (less_iff a b na nb Ha Hb) as Lab.
  pose proof (less_iff b a nb na Hb Ha) as Lba.
  pose proof (less_iff b c nb nc Hb Hc) as Lbc.
  pose proof (less_iff c b nc nb Hc Hb) as Lcb.
  pose proof (less_iff a c na nc Ha Hc) as Lac.
  pose proof (less_iff c a nc na Hc Ha) as Lca.
  pose proof (less_iff a a na na Ha Ha) as Laa.
  pose proof (equal_iff a b na nb Ha Hb) as Eab.
  set (ta := OrtMemoryInfo.type a) in *. set (tb := OrtMemoryInfo.type b) in *.
  set (tc := OrtMemoryInfo.type c) in *.
  set (ma := OrtMemoryInfo.mem_type a) in *. set (mb := OrtMemoryInfo.mem_type b) in *.
  set (mc := OrtMemoryInfo.mem_type c) in *.
  set (ia := OrtMemoryInfo.id a) in *. set (ib := OrtMemoryInfo.id b) in *.
  set (ic := OrtMemoryInfo.id c) in *.
  set (sa := CString.c_str na) in *. set (sb := CString.c_str nb) in *.
  set (sc := CString.c_str nc) in *.
  pose proof (info_lt_irrefl ta ma ia sa) as Irr_a.
  pose proof (info_lt_irrefl tb mb ib sb) as Irr_b.
  pose proof (info_lt_irrefl tc mc ic sc) as Irr_c.
  pose proof (info_lt_total ta ma ia sa tb mb ib sb) as Tab.
  pose proof (info_lt_total tb mb ib sb tc mc ic sc) as Tbc.
  pose proof (info_lt_trans ta ma ia sa tb mb ib sb ta ma ia sa) as Taba.
  pose proof (info_lt_trans ta ma ia sa tb mb ib sb tc mc ic sc) as Tabc.
  split_and!.
  - by apply (lt_defined a b na nb).
  - by apply (eq_defined a b na nb).
  - rewrite Lab, Lba, Eab.
    destruct Tab as [H | [(-> & -> & -> & ->) | H]].
    + left. split_and!; [done | tauto |].
      intros (-> & -> & -> & ->). tauto.
    + right; right. tauto.
    + right; left. split_and!; [tauto | done |].
      intros (-> & -> & -> & ->). tauto.
  - done.
  - done.
  - intros d. by destruct a, b.
  - rewrite Laa. done.
  - rewrite Lab, Lbc, Lac. done.
  - rewrite Lab, Lba, Lbc, Lcb, Lac, Lca. intros nab nba nbc ncb.
    destruct Tab as [H | [(-> & -> & -> & ->) | H]]; [done | | done].
    destruct Tbc as [H | [(-> & -> & -> & ->) | H]]; [done | | done].
    done.
Qed.

Lemma OrtMemoryInfo_strict_weak_order_witness :
  less (OrtMemoryInfo.ctor (Some "Cpu"%string) 0 OrtDevice.default 0 0)
       (OrtMemoryInfo.ctor (Some "Tensorrt"%string) 0 OrtDevice.default 0 0).
Proof.
  apply (OrtMemoryInfo_strict_weak_order
           (OrtMemoryInfo.ctor (Some "Cpu"%string) 0 OrtDevice.default 0 0)
           (OrtMemoryInfo.ctor (Some "Cuda"%string) 0 OrtDevice.default 0 0)
           (OrtMemoryInfo.ctor (Some "Tensorrt"%string) 0 OrtDevice.default 0 0)
           "Cpu" "Cuda" "Tensorrt" eq_refl eq_refl eq_refl);
    reflexivity.
Defined.

(** C7, as stated, fails: the constructor has no statement that could stop
    it, and constructing with a null name yields a descriptor whose name is
    null. *)
Lemma ctor_null_name_constructs :
  exists m, m = OrtMemoryInfo.ctor None 0 OrtDevice.default 0 0 /\
            OrtMemoryInfo.name m = None.
Proof. eexists. split; reflexivity. Qed.

(** C7 (amended): the constructor checks nothing at run time: for every
    name pointer, null included, it completes and stores its arguments as
    given.  A null name only shows later: comparing such a descriptor, on
    either side, with one of equal tags and id reaches [strcmp] on the null
    pointer, which is undefined. *)
Theorem ctor_stores_arguments
    (name_ : CString.pointer) (type_ : Z) (device_ : OrtDevice.t) (id_ mem_type_ : Z) :
  let m := OrtMemoryInfo.ctor name_ type_ device_ id_ mem_type_ in
  OrtMemoryInfo.name m = name_ /\
  OrtMemoryInfo.type m = type_ /\
  OrtMemoryInfo.device m = device_ /\
  OrtMemoryInfo.id m = id_ /\
  OrtMemoryInfo.mem_type m = mem_type_ /\
  (name_ = None ->
   forall other,
     OrtMemoryInfo.type other = type_ ->
     OrtMemoryInfo.mem_type other = mem_type_ ->
     OrtMemoryInfo.id other = id_ ->
     OrtMemoryInfo.lt m other = None /\ OrtMemoryInfo.lt other m = None /\
     OrtMemoryInfo.eq m other = None /\ OrtMemoryInfo.eq other m = None).
Proof.
  simpl. split_and!; try done.
  intros -> other <- <- <-.
  unfold OrtMemoryInfo.lt, OrtMemoryInfo.eq, CString.strcmp_ptr. simpl.
  rewrite !Z.eqb_refl. simpl.
  by destruct (OrtMemoryInfo.name other).
Qed.

Lemma ctor_stores_arguments_witness :
  OrtMemoryInfo.lt (OrtMemoryInfo.ctor None 1 OrtDevice.default 2 0)
                   (OrtMemoryInfo.ctor (Some "Cpu"%string) 1 OrtDevice.default 2 0) = None.
Proof.
  apply (ctor_stores_arguments None 1 OrtDevice.default 2 0); reflexivity.
Defined.

(** ** Array allocation and the ownership wrapper *)

Section AllocatorFacts.

Context {A : Type} `{!IAllocator A}.

Implicit Types (w : world A) (c : ctrl A) (l this : loc).

Lemma call_Alloc_live w this c size :
  heap w !! this = Some c ->
  call_Alloc this size w = Some (after_Alloc w this c size).
Proof.
  intros Hc. unfold call_Alloc, after_Alloc. rewrite Hc.
  by destruct (Alloc (object c) size).
Qed.

Lemma shared_ptr_copy_live w l c :
  heap w !! l = Some c ->
  shared_ptr_copy l w =
    Some (tt, mk_world (<[l := mk_ctrl (object c) (S (use_count c))]> (heap w)) (trace w)).
Proof. intros Hc. unfold shared_ptr_copy. by rewrite Hc. Qed.

Lemma shared_ptr_release_shared w l c n :
  heap w !! l = Some c -> use_count c = S (S n) ->
  shared_ptr_release l w =
    Some (tt, mk_world (<[l := mk_ctrl (object c) (S n)]> (heap w)) (trace w)).
Proof. intros Hc Hn. unfold shared_ptr_release. by rewrite Hc, Hn. Qed.

Lemma shared_ptr_release_last w l c :
  heap w !! l = Some c -> use_count c = 1%nat ->
  shared_ptr_release l w =
    Some (tt, mk_world (delete l (heap w)) (trace w ++ [EvDelete l])).
Proof. intros Hc Hn. unfold shared_ptr_release. by rewrite Hc, Hn. Qed.

(** When [n] of [n + 1 + m] owners go away the allocator stays, unchanged,
    and nothing is observed. *)
Lemma release_owners_keeps n : forall w l c m,
  heap w !! l = Some c -> use_count c = (n + S m)%nat ->
  exists w',
    release_owners n l w = Some (tt, w') /\
    heap w' !! l = Some (mk_ctrl (object c) (S m)) /\
    trace w' = trace w.
Proof.
  induction n as [| n IH]; intros w l c m Hc Hn; simpl in *.
  - exists w. split; [done |]. split; [| done].
    rewrite Hc. destruct c; simpl in *. by subst.
  - unfold bind.
    rewrite (shared_ptr_release_shared w l c (n + m)) by (done || lia).
    edestruct (IH (mk_world (<[l := mk_ctrl (object c) (S (n + m))]> (heap w)) (trace w))
                  l (mk_ctrl (object c) (S (n + m))) m) as (w' & Hrun & Hl & Htr).
    + simpl. apply lookup_insert_eq.
    + simpl. lia.
    + exists w'. done.
Qed.

(** The path of [MakeUniquePtr] that reaches [Alloc]: the request is
    forwarded, the lambda takes a share of the allocator and the parameter
    gives its share up, so the number of owners is what it was. *)
Lemma MakeUniquePtr_allocates T l count w c n (len : Z) :
  heap w !! l = Some c -> use_count c = S n ->
  (if is_void T then len = count
   else CalcMemSizeForArray count (sizeof_conditional T) (Some count)
        = Some (true, Some len)) ->
  MakeUniquePtr T (Some l) count w =
    Some (mk_unique_ptr (Alloc (object c) len).1 (Deleter_lambda l),
          mk_world (<[l := mk_ctrl (Alloc (object c) len).2 (S n)]> (heap w))
                   (trace w ++ [EvAlloc l len (Alloc (object c) len).1])).
Proof.
  intros Hc Hn Hlen. unfold MakeUniquePtr. cbv zeta.
  unfold bind at 1. cbv beta.
  destruct T as [| sz]; simpl in Hlen |- *;
    [subst len | unfold lift at 1; rewrite Hlen].
  all: unfold bind at 1; simpl.
  all: unfold bind at 1; rewrite (call_Alloc_live w l c _ Hc); unfold after_Alloc.
  all: unfold bind at 1;
    erewrite shared_ptr_copy_live by (simpl; apply lookup_insert_eq); simpl.
  all: unfold bind at 1;
    (erewrite shared_ptr_release_shared;
       [| simpl; apply lookup_insert_eq | simpl; by rewrite Hn]); simpl.
  all: unfold ret; by rewrite !insert_insert_eq.
Qed.

(** The path of [MakeUniquePtr] taken on overflow: only the parameter is
    destroyed. *)
Lemma MakeUniquePtr_overflow T l count w o :
  is_void T = false ->
  CalcMemSizeForArray count (sizeof_conditional T) (Some count) = Some (false, o) ->
  MakeUniquePtr T (Some l) count w =
    match shared_ptr_release l w with
    | Some (_, w') => Some (empty_unique_ptr, w')
    | None => None
    end.
Proof.
  intros Hv Hov. unfold MakeUniquePtr. rewrite Hv. simpl.
  unfold bind at 1. unfold lift. rewrite Hov.
  unfold bind. destruct (shared_ptr_release l w) as [[[] w'] |]; done.
Qed.

End AllocatorFacts.

Section AllocatorClaims.

Context {A : Type} `{!IAllocator A}.

Implicit Types (w : world A) (c : ctrl A) (l this : loc).

(** C3: [AllocArray] and [AllocArrayWithAlignment] run the size computation
    first.  When it reports overflow they return null and the world is
    what it was: no member of the allocator was called.  When it succeeds
    they are the call [Alloc(len)] on the computed length, whose result is
    returned as it is.  [AllocArray] is the instance without alignment, and
    for it one of the two cases always applies. *)
Theorem AllocArray_overflow_safe this (alignment nmemb size : Z) w :
  AllocArray this nmemb size w = AllocArrayWithAlignment 0 this nmemb size w /\
  (forall o,
     CalcMemSizeForArrayWithAlignment alignment nmemb size None = Some (false, o) ->
     AllocArrayWithAlignment alignment this nmemb size w = Some (nullptr, w)) /\
  (forall len,
     CalcMemSizeForArrayWithAlignment alignment nmemb size None = Some (true, Some len) ->
     AllocArrayWithAlignment alignment this nmemb size w = call_Alloc this len w /\
     forall c, heap w !! this = Some c ->
       AllocArrayWithAlignment alignment this nmemb size w =
         Some (after_Alloc w this c len)) /\
  (SizeT.in_range nmemb -> SizeT.in_range size ->
   forall c, heap w !! this = Some c ->
     AllocArray this nmemb size w =
       if SizeT.max <? nmemb * size then Some (nullptr, w)
       else Some (after_Alloc w this c (nmemb * size))).
Proof.
  split_and!.
  - done.
  - intros o Hov. unfold AllocArrayWithAlignment, bind, lift. by rewrite Hov.
  - intros len Hlen.
    assert (Hrun : AllocArrayWithAlignment alignment this nmemb size w
                   = call_Alloc this len w).
    { unfold AllocArrayWithAlignment, bind, lift. rewrite Hlen.
      by destruct (call_Alloc this len w) as [[p w'] |]. }
    split; [done |]. intros c Hc. rewrite Hrun. by apply call_Alloc_live.
  - intros Hn Hs c Hc. unfold AllocArray, bind, lift.
    rewrite CalcMemSizeForArray_exact by done.
    destruct (SizeT.max <? nmemb * size); [done |].
    rewrite (call_Alloc_live w this c _ Hc). by destruct (after_Alloc _ _ _ _).
Qed.

(** C4: with an empty allocator [MakeUniquePtr] returns an empty handle and
    touches nothing.  Otherwise the number of bytes is [count_or_bytes]
    itself when [T] is [void] and [count_or_bytes * sizeof(T)] when it is
    not; when that number fits a [size_t], exactly that many bytes are
    requested from [Alloc] and the handle wraps the result; when it does
    not, the handle is empty and [Alloc] is not called: the only effect is
    that the parameter gives up its share of the allocator. *)
Theorem MakeUniquePtr_sizes (T : elem_type) l (count_or_bytes : Z) w c (n : nat) :
  heap w !! l = Some c -> use_count c = S n ->
  SizeT.in_range count_or_bytes -> SizeT.in_range (sizeof_conditional T) ->
  let bytes := if is_void T then count_or_bytes
               else count_or_bytes * sizeof_conditional T in
  MakeUniquePtr T None count_or_bytes w = Some (empty_unique_ptr, w) /\
  (if is_void T || (bytes <=? SizeT.max)
   then
     MakeUniquePtr T (Some l) count_or_bytes w =
       Some (mk_unique_ptr (Alloc (object c) bytes).1 (Deleter_lambda l),
             mk_world (<[l := mk_ctrl (Alloc (object c) bytes).2 (S n)]> (heap w))
                      (trace w ++ [EvAlloc l bytes (Alloc (object c) bytes).1]))
   else
     exists w',
       MakeUniquePtr T (Some l) count_or_bytes w = Some (empty_unique_ptr, w') /\
       shared_ptr_release l w = Some (tt, w') /\
       trace w' = trace w ++ (if decide (n = 0%nat) then [EvDelete l] else []) /\
       (forall c', heap w' !! l = Some c' -> object c' = object c)).
Proof.
  intros Hc Hn Hcount Hsz bytes. split; [done |].
  destruct T as [| sz]; subst bytes; cbn [is_void sizeof_conditional orb] in *.
  - by apply (MakeUniquePtr_allocates T_void l count_or_bytes w c n).
  - pose proof (CalcMemSizeForArray_exact count_or_bytes sz (Some count_or_bytes)
                  Hcount Hsz) as Hcalc.
    destruct (Z.leb_spec (count_or_bytes * sz) SizeT.max) as [Hfit | Hov].
    + apply (MakeUniquePtr_allocates (T_object sz) l count_or_bytes w c n).
      * done.
      * done.
      * simpl. rewrite Hcalc.
        destruct (Z.ltb_spec SizeT.max (count_or_bytes * sz)); [lia | done].
    + assert (Hcalc' : CalcMemSizeForArray count_or_bytes sz (Some count_or_bytes)
                       = Some (false, Some count_or_bytes)).
      { rewrite Hcalc.
        destruct (Z.ltb_spec SizeT.max (count_or_bytes * sz)); [done | lia]. }
      rewrite (MakeUniquePtr_overflow (T_object sz) l count_or_bytes w _ eq_refl Hcalc').
      destruct n as [| n].
      * rewrite (shared_ptr_release_last w l c Hc Hn).
        eexists. split_and!; [done | done | done |].
        simpl. intros c'. by rewrite lookup_delete_eq.
      * rewrite (shared_ptr_release_shared w l c n Hc Hn).
        eexists. split_and!; [done | done | simpl; by rewrite app_nil_r |].
        simpl. intros c'. rewrite lookup_insert_eq. by intros [= <-].
Qed.

(** A handle returned after [Alloc] carries the lambda, and with it a share
    of the allocator: when all the other owners have gone the allocator is
    still alive, and destroying the handle calls [Free] on it before it is
    deleted. *)
Lemma lambda_handle_outlives_owners
    (T : elem_type) l (count_or_bytes len : Z) w c (n : nat) :
  heap w !! l = Some c -> use_count c = S n ->
  (if is_void T then len = count_or_bytes
   else CalcMemSizeForArray count_or_bytes (sizeof_conditional T) (Some count_or_bytes)
        = Some (true, Some len)) ->
  exists h w1 w2 w3,
    MakeUniquePtr T (Some l) count_or_bytes w = Some (h, w1) /\
    get h = (Alloc (object c) len).1 /\
    get_deleter h = Deleter_lambda l /\
    (exists c1, heap w1 !! l = Some c1 /\ use_count c1 = S n) /\
    release_owners n l w1 = Some (tt, w2) /\
    (exists c2, heap w2 !! l = Some c2 /\ use_count c2 = 1%nat) /\
    trace w2 = trace w1 /\
    destroy_unique_ptr h w2 = Some (tt, w3) /\
    trace w3 = trace w2 ++ (if get h =? nullptr then [] else [EvFree l (get h)])
                        ++ [EvDelete l] /\
    heap w3 !! l = None.
Proof.
  intros Hc Hn Hlen.
  pose proof (MakeUniquePtr_allocates T l count_or_bytes w c n len Hc Hn Hlen) as Hmk.
  set (r := Alloc (object c) len) in *.
  set (w1 := mk_world (<[l := mk_ctrl r.2 (S n)]> (heap w))
                      (trace w ++ [EvAlloc l len r.1])) in *.
  assert (Hl1 : heap w1 !! l = Some (mk_ctrl r.2 (S n))) by apply lookup_insert_eq.
  destruct (release_owners_keeps n w1 l (mk_ctrl r.2 (S n)) 0%nat Hl1)
    as (w2 & Hrel & Hl2 & Htr2); [simpl; lia |].
  simpl in Hl2.
  set (h := mk_unique_ptr r.1 (Deleter_lambda l)) in *.
  assert (Hdestroy : exists w3,
    destroy_unique_ptr h w2 = Some (tt, w3) /\
    trace w3 = trace w2 ++ (if get h =? nullptr then [] else [EvFree l (get h)])
                        ++ [EvDelete l] /\
    heap w3 !! l = None).
  { unfold destroy_unique_ptr, bind. simpl.
    destruct (r.1 =? nullptr).
    - simpl. unfold ret.
      rewrite (shared_ptr_release_last w2 l _ Hl2 eq_refl).
      eexists. split_and!; [done | done |]. simpl. apply lookup_delete_eq.
    - unfold call_Free. rewrite Hl2. simpl.
      erewrite shared_ptr_release_last; [| simpl; apply lookup_insert_eq | done].
      eexists. split_and!; [done | |]; simpl.
      + by rewrite <- app_assoc.
      + apply lookup_delete_eq. }
  destruct Hdestroy as (w3 & Hd & Htr3 & Hl3).
  exists h, w1, w2, w3. split_and!; try done; eauto.
Qed.

(** C9: a handle that [MakeUniquePtr] builds from the result of [Alloc] has
    the lambda as its deleter, and the lambda holds a share of the allocator:
    the allocator has as many owners after the call as before, the handle
    standing in for the parameter.  When all the other owners have gone the
    allocator is still alive; destroying the handle then calls [Free] on it
    exactly once if the wrapped pointer is not null and not at all if it is
    null, and only after that is the allocator deleted.  The handles of the
    two early returns wrap a null pointer: destroying one calls nothing, in
    any world, so every handle with a non-null pointer carries the lambda. *)
Theorem MakeUniquePtr_handle_owns_allocator
    (T : elem_type) l (count_or_bytes : Z) w c (n : nat) :
  heap w !! l = Some c -> use_count c = S n ->
  SizeT.in_range count_or_bytes -> SizeT.in_range (sizeof_conditional T) ->
  let bytes := if is_void T then count_or_bytes
               else count_or_bytes * sizeof_conditional T in
  MakeUniquePtr T None count_or_bytes w = Some (empty_unique_ptr, w) /\
  (forall w', destroy_unique_ptr empty_unique_ptr w' = Some (tt, w')) /\
  exists h w1,
    MakeUniquePtr T (Some l) count_or_bytes w = Some (h, w1) /\
    (get h <> nullptr -> get_deleter h = Deleter_lambda l) /\
    (if is_void T || (bytes <=? SizeT.max)
     then
       get h = (Alloc (object c) bytes).1 /\
       get_deleter h = Deleter_lambda l /\
       (exists c1, heap w1 !! l = Some c1 /\ use_count c1 = S n) /\
       exists w2 w3,
         release_owners n l w1 = Some (tt, w2) /\
         (exists c2, heap w2 !! l = Some c2 /\ use_count c2 = 1%nat) /\
         trace w2 = trace w1 /\
         destroy_unique_ptr h w2 = Some (tt, w3) /\
         trace w3 = trace w2 ++ (if get h =? nullptr then [] else [EvFree l (get h)])
                             ++ [EvDelete l] /\
         heap w3 !! l = None
     else
       h = empty_unique_ptr).
Proof.
  intros Hc Hn Hcount Hsz bytes.
  split; [done |]. split; [done |].
  assert (Hpath :
    (is_void T || (bytes <=? SizeT.max) = true /\
     if is_void T then bytes = count_or_bytes
     else CalcMemSizeForArray count_or_bytes (sizeof_conditional T) (Some count_or_bytes)
          = Some (true, Some bytes)) \/
    (is_void T || (bytes <=? SizeT.max) = false /\ is_void T = false /\
     CalcMemSizeForArray count_or_bytes (sizeof_conditional T) (Some count_or_bytes)
     = Some (false, Some count_or_bytes))).
  { destruct T as [| sz]; subst bytes; cbn [is_void sizeof_conditional orb] in *.
    - by left.
    - rewrite (CalcMemSizeForArray_exact count_or_bytes sz _ Hcount Hsz).
      destruct (Z.leb_spec (count_or_bytes * sz) SizeT.max),
               (Z.ltb_spec SizeT.max (count_or_bytes * sz)); try lia;
        [by left | by right]. }
  destruct Hpath as [[Hyes Hlen] | (Hno & Hvoid & Hov)].
  - rewrite Hyes.
    destruct (lambda_handle_outlives_owners T l count_or_bytes bytes w c n Hc Hn Hlen)
      as (h & w1 & w2 & w3 & Hmk & Hget & Hdel & Hown & Hrel & Halive & Htr & Hd & Htr3 & Hgone).
    exists h, w1. split_and!; try done. eauto 10.
  - rewrite Hno.
    rewrite (MakeUniquePtr_overflow T l count_or_bytes w _ Hvoid Hov).
    destruct n as [| n].
    + rewrite (shared_ptr_release_last w l c Hc Hn).
      eexists _, _. split_and!; done.
    + rewrite (shared_ptr_release_shared w l c n Hc Hn).
      eexists _, _. split_and!; done.
Qed.

End AllocatorClaims.

(** ** Runs on the arena *)

(** Four floats: 16 bytes are requested, and destroying the handle calls
    [Free] once, after which the allocator, left without owners, is
    deleted. *)
Example four_floats :
  exists h w1 w2,
    MakeUniquePtr (T_object 4) (Some 1%positive) 4 (Arena.one 1) = Some (h, w1) /\
    trace w1 = [EvAlloc 1%positive 16 4096] /\
    get h = 4096 /\
    destroy_unique_ptr h w1 = Some (tt, w2) /\
    trace w2 = [EvAlloc 1%positive 16 4096; EvFree 1%positive 4096; EvDelete 1%positive].
Proof. do 3 eexists. split_and!; by vm_compute. Qed.

Lemma AllocArray_overflow_safe_witness :
  AllocArray 1%positive 10 20 (Arena.one 1) =
    if SizeT.max <? 10 * 20 then Some (nullptr, Arena.one 1)
    else Some (after_Alloc (Arena.one 1) 1%positive (mk_ctrl Arena.fresh 1) (10 * 20)).
Proof.
  apply (AllocArray_overflow_safe 1%positive 0 10 20 (Arena.one 1)).
  - unfold SizeT.in_range, SizeT.max, SizeT.modulus, SizeT.digits. lia.
  - unfold SizeT.in_range, SizeT.max, SizeT.modulus, SizeT.digits. lia.
  - reflexivity.
Defined.

Lemma MakeUniquePtr_sizes_witness :
  MakeUniquePtr (T_object 4) None 4 (Arena.one 1) = Some (empty_unique_ptr, Arena.one 1).
Proof.
  apply (MakeUniquePtr_sizes (T_object 4) 1%positive 4 (Arena.one 1)
           (mk_ctrl Arena.fresh 1) 0).
  - reflexivity.
  - reflexivity.
  - unfold SizeT.in_range, SizeT.max, SizeT.modulus, SizeT.digits. lia.
  - unfold SizeT.in_range, SizeT.max, SizeT.modulus, SizeT.digits. simpl. lia.
Defined.

(** On overflow the handle is empty and takes no share: with one other
    owner besides the parameter, the allocator is deleted when that owner
    goes away, and destroying the handle afterwards calls nothing. *)
Example overflow_handle_is_empty :
  exists h w1 w2,
    MakeUniquePtr (T_object 4) (Some 1%positive) SizeT.max (Arena.one 2) = Some (h, w1) /\
    h = empty_unique_ptr /\
    release_owners 1 1%positive w1 = Some (tt, w2) /\
    heap w2 !! 1%positive = None /\
    trace w2 = [EvDelete 1%positive] /\
    destroy_unique_ptr h w2 = Some (tt, w2).
Proof. do 3 eexists. split_and!; by vm_compute. Qed.

Lemma MakeUniquePtr_handle_owns_allocator_witness :
  MakeUniquePtr (T_object 4) None 4 (Arena.one 3) = Some (empty_unique_ptr, Arena.one 3) /\
  (forall w', destroy_unique_ptr empty_unique_ptr w' = Some (tt, w')) /\
  exists h w1,
    MakeUniquePtr (T_object 4) (Some 1%positive) 4 (Arena.one 3) = Some (h, w1) /\
    (get h <> nullptr -> get_deleter h = Deleter_lambda 1%positive) /\
    (if is_void (T_object 4) || (4 * sizeof_conditional (T_object 4) <=? SizeT.max)
     then
       get h = (Alloc (object (mk_ctrl Arena.fresh 3)) (4 * sizeof_conditional (T_object 4))).1 /\
       get_deleter h = Deleter_lambda 1%positive /\
       (exists c1, heap w1 !! 1%positive = Some c1 /\ use_count c1 = 3%nat) /\
       exists w2 w3,
         release_owners 2 1%positive w1 = Some (tt, w2) /\
         (exists c2, heap w2 !! 1%positive = Some c2 /\ use_count c2 = 1%nat) /\
         trace w2 = trace w1 /\
         destroy_unique_ptr h w2 = Some (tt, w3) /\
         trace w3 = trace w2 ++ (if get h =? nullptr then [] else [EvFree 1%positive (get h)])
                             ++ [EvDelete 1%positive] /\
         heap w3 !! 1%positive = None
     else
       h = empty_unique_ptr).
Proof.
  apply (MakeUniquePtr_handle_owns_allocator (T_object 4) 1%positive 4 (Arena.one 3)
           (mk_ctrl Arena.fresh 3) 2).
  - reflexivity.
  - reflexivity.
  - unfold SizeT.in_range, SizeT.max, SizeT.modulus, SizeT.digits. lia.
  - unfold SizeT.in_range, SizeT.max, SizeT.modulus, SizeT.digits. simpl. lia.
Defined.

(** * Further properties *)

(** ** The sizing routine *)

(** The two operands are tested by different comparisons, yet for every
    alignment below 2^32 the outcome does not depend on which of them is
    the count and which the element size. *)
Theorem sizing_operands_commute (a n s : Z) (out : cell) :
  Spec.small_alignment a -> SizeT.in_range n -> SizeT.in_range s ->
  CalcMemSizeForArrayWithAlignment a n s out =
  CalcMemSizeForArrayWithAlignment a s n out.
Proof.
  intros Ha Hn Hs. rewrite !Calc_small by done. by rewrite (Z.mul_comm s n).
Qed.

Lemma sizing_operands_commute_witness :
  CalcMemSizeForArrayWithAlignment 8 3 (2 ^ 40) None =
  CalcMemSizeForArrayWithAlignment 8 (2 ^ 40) 3 None.
Proof.
  apply (sizing_operands_commute 8 3 (2 ^ 40) None).
  - right. exists 3. split; [change (SizeT.digits / 2) with 32; lia | reflexivity].
  - unfold SizeT.in_range, SizeT.max, SizeT.modulus, SizeT.digits. lia.
  - unfold SizeT.in_range, SizeT.max, SizeT.modulus, SizeT.digits. lia.
Defined.

Lemma Calc_result_bounds (a n s v : Z) (out : cell) :
  Spec.small_alignment a -> SizeT.in_range n -> SizeT.in_range s ->
  CalcMemSizeForArrayWithAlignment a n s out = Some (true, Some v) ->
  n * s <= v <= SizeT.max /\
  (a = 0 -> v = n * s) /\
  (0 < a -> (a | v) /\ v < n * s + a).
Proof.
  intros Ha Hn Hs Hrun. rewrite Calc_small in Hrun by done.
  pose proof (small_alignment_bound a Ha) as Hab.
  destruct (Z.ltb_spec (SizeT.max - a) (n * s)) as [Hov | Hfit]; [done |].
  injection Hrun as <-.
  destruct (Z.eq_dec a 0) as [-> | Hne].
  - unfold Spec.round_up. simpl. split_and!; [lia | lia | done | lia].
  - pose proof (round_up_spec (n * s) a ltac:(lia)) as [Hb Hd].
    split_and!; [lia | lia | lia | intros _; split; [done | lia]].
Qed.

(** A size the routine hands out is never too small: it is at least the
    true product, it fits a [size_t], it is the product itself without
    alignment, and with an alignment it is a multiple of it less than one
    alignment above the product. *)
Theorem sizing_never_undersized (a n s v : Z) (out : cell) :
  Spec.small_alignment a -> SizeT.in_range n -> SizeT.in_range s ->
  CalcMemSizeForArrayWithAlignment a n s out = Some (true, Some v) ->
  n * s <= v <= SizeT.max /\
  (a = 0 -> v = n * s) /\
  (0 < a -> (a | v) /\ v < n * s + a).
Proof. apply Calc_result_bounds. Qed.

Lemma sizing_never_undersized_witness :
  3 * 5 <= 16 <= SizeT.max /\ (8 = 0 -> 16 = 3 * 5) /\ (0 < 8 -> (8 | 16) /\ 16 < 3 * 5 + 8).
Proof.
  apply (sizing_never_undersized 8 3 5 16 None).
  - right. exists 3. split; [change (SizeT.digits / 2) with 32; lia | reflexivity].
  - unfold SizeT.in_range, SizeT.max, SizeT.modulus, SizeT.digits. lia.
  - unfold SizeT.in_range, SizeT.max, SizeT.modulus, SizeT.digits. lia.
  - reflexivity.
Defined.

(** Acceptance is monotone: when a request is accepted, so is every request
    with no more elements of no larger size. *)
Theorem sizing_accepts_smaller (a n s n' s' : Z) (out : cell) :
  Spec.small_alignment a ->
  SizeT.in_range n -> SizeT.in_range s ->
  0 <= n' <= n -> 0 <= s' <= s ->
  Spec.returns_true a n s out -> Spec.returns_true a n' s' out.
Proof.
  intros Ha Hn Hs Hn' Hs' [o Hrun].
  unfold SizeT.in_range in *.
  rewrite Calc_small in Hrun by done.
  destruct (Z.ltb_spec (SizeT.max - a) (n * s)) as [Hov | Hfit]; [done |].
  unfold Spec.returns_true. rewrite Calc_small by (done || (unfold SizeT.in_range; lia)).
  destruct (Z.ltb_spec (SizeT.max - a) (n' * s')) as [Hov' | Hfit']; [nia | eauto].
Qed.

Lemma sizing_accepts_smaller_witness : Spec.returns_true 16 7 100 None.
Proof.
  apply (sizing_accepts_smaller 16 10 200 7 100 None).
  - right. exists 4. split; [change (SizeT.digits / 2) with 32; lia | reflexivity].
  - unfold SizeT.in_range, SizeT.max, SizeT.modulus, SizeT.digits. lia.
  - unfold SizeT.in_range, SizeT.max, SizeT.modulus, SizeT.digits. lia.
  - lia.
  - lia.
  - eexists. reflexivity.
Defined.

(** The only way the routine can fail to return is the division by a zero
    count, and that is reached exactly when the alignment is 2^32. *)
Theorem sizing_undefined_iff (a n s : Z) (out : cell) :
  SizeT.in_range a -> SizeT.in_range n ->
  (CalcMemSizeForArrayWithAlignment a n s out = None <-> n = 0 /\ a = 2 ^ 32).
Proof.
  intros Ha Hn. unfold SizeT.in_range in *.
  assert (Hmax : SizeT.max = 2 ^ 64 - 1) by done.
  assert (Hma : 0 <= max_allowed a /\ (max_allowed a = 0 <-> a = 2 ^ 32)).
  { unfold max_allowed, SizeT.sub, SizeT.shl, SizeT.shr, SizeT.wrap.
    change (Z.shiftr SizeT.digits 1) with 32.
    change (Z.shiftl 1 32) with (2 ^ 32).
    change SizeT.modulus with (2 ^ 64).
    rewrite (Z.mod_small (2 ^ 32)) by lia.
    destruct (Z_le_gt_dec a (2 ^ 32)).
    - rewrite Z.mod_small by lia. lia.
    - replace ((2 ^ 32 - a) mod 2 ^ 64) with (2 ^ 64 + 2 ^ 32 - a); [lia |].
      apply Z.mod_unique_pos with (q := -1); lia. }
  destruct Hma as [Hma0 Hma].
  unfold CalcMemSizeForArrayWithAlignment, max_size_div.
  destruct (Z.leb_spec (max_allowed a) n) as [H1 | H1]; simpl.
  - destruct (Z.eqb_spec n 0) as [-> | Hn0]; simpl.
    + split; [intros _; split; [done |]; apply Hma; lia | done].
    + repeat (match goal with |- context [if ?c then _ else _] => destruct c end;
              simpl); split; (done || lia).
  - assert (Hnot : ~ (n = 0 /\ a = 2 ^ 32)).
    { intros [-> Ha32]. apply Hma in Ha32. lia. }
    destruct (max_allowed a <=? s); simpl; [| by destruct (a =? 0)].
    destruct (Z.ltb_spec 0 n); simpl; [| by destruct (a =? 0)].
    destruct (Z.eqb_spec n 0); [lia |]. simpl.
    by repeat (match goal with |- context [if ?c then _ else _] => destruct c end).
Qed.

Lemma sizing_undefined_iff_witness :
  CalcMemSizeForArrayWithAlignment (2 ^ 32) 0 5 None = None <-> 0 = 0 /\ 2 ^ 32 = 2 ^ 32.
Proof.
  apply (sizing_undefined_iff (2 ^ 32) 0 5 None).
  - unfold SizeT.in_range, SizeT.max, SizeT.modulus, SizeT.digits. lia.
  - unfold SizeT.in_range, SizeT.max, SizeT.modulus, SizeT.digits. lia.
Defined.

(** For an alignment that is a power of two above 2^32, [max_allowed] wraps
    around to [2^64 + 2^32 - alignment], and operands below it are never
    tested: the routine accepts them even when their product does not fit a
    [size_t], and stores a value smaller than the product. *)
Theorem sizing_large_alignment_accepts_overflow (k n s : Z) (out : cell) :
  32 < k < 64 ->
  0 <= n < 2 ^ 64 + 2 ^ 32 - 2 ^ k ->
  0 <= s < 2 ^ 64 + 2 ^ 32 - 2 ^ k ->
  SizeT.max < n * s ->
  exists v,
    CalcMemSizeForArrayWithAlignment (2 ^ k) n s out = Some (true, Some v) /\
    0 <= v < n * s.
Proof.
  intros Hk Hn Hs Hov.
  assert (Hmax : SizeT.max = 2 ^ 64 - 1) by done.
  assert (Hpow : 2 ^ 32 < 2 ^ k < 2 ^ 64).
  { split; apply Z.pow_lt_mono_r; lia. }
  assert (Hma : max_allowed (2 ^ k) = 2 ^ 64 + 2 ^ 32 - 2 ^ k).
  { unfold max_allowed, SizeT.sub, SizeT.shl, SizeT.shr, SizeT.wrap.
    change (Z.shiftr SizeT.digits 1) with 32.
    change (Z.shiftl 1 32) with (2 ^ 32).
    change SizeT.modulus with (2 ^ 64).
    rewrite (Z.mod_small (2 ^ 32)) by lia.
    symmetry. apply Z.mod_unique_pos with (q := -1); lia. }
  unfold CalcMemSizeForArrayWithAlignment. rewrite Hma.
  destruct (Z.leb_spec (2 ^ 64 + 2 ^ 32 - 2 ^ k) n); [lia |].
  destruct (Z.leb_spec (2 ^ 64 + 2 ^ 32 - 2 ^ k) s); [lia |]. simpl.
  destruct (Z.eqb_spec (2 ^ k) 0); [lia |].
  eexists. split; [reflexivity |].
  set (x := SizeT.add (SizeT.mul s n) (alignment_mask (2 ^ k))).
  assert (Hx : 0 <= x < SizeT.modulus).
  { unfold x, SizeT.add, SizeT.wrap. apply Z.mod_pos_bound. done. }
  rewrite mask_round_down by (done || (change SizeT.digits with 64; lia)).
  change SizeT.modulus with (2 ^ 64) in Hx.
  pose proof (Z.mul_div_le x (2 ^ k) ltac:(lia)).
  pose proof (Z.div_pos x (2 ^ k) ltac:(lia) ltac:(lia)).
  nia.
Qed.

Lemma sizing_large_alignment_accepts_overflow_witness :
  exists v,
    CalcMemSizeForArrayWithAlignment (2 ^ 33) (2 ^ 33) (2 ^ 33) None = Some (true, Some v) /\
    0 <= v < 2 ^ 33 * 2 ^ 33.
Proof.
  apply (sizing_large_alignment_accepts_overflow 33 (2 ^ 33) (2 ^ 33) None).
  - lia.
  - lia.
  - lia.
  - unfold SizeT.max, SizeT.modulus, SizeT.digits. lia.
Defined.

(** ** Array allocation and handles *)

Section AllocatorExtras.

Context {A : Type} `{!IAllocator A}.

Implicit Types (w : world A) (c : ctrl A) (l this : loc).

(** Destroying a handle whose deleter is the lambda, on a live allocator
    with [S n] owners. *)
Lemma destroy_lambda_handle w l c (n : nat) (p : ptr) :
  heap w !! l = Some c -> use_count c = S n ->
  exists w',
    destroy_unique_ptr (mk_unique_ptr p (Deleter_lambda l)) w = Some (tt, w') /\
    trace w' = trace w ++ (if p =? nullptr then [] else [EvFree l p])
                       ++ (if decide (n = 0%nat) then [EvDelete l] else []) /\
    heap w' !! l =
      (if decide (n = 0%nat) then None
       else Some (mk_ctrl (if p =? nullptr then object c else Free (object c) p) n)) /\
    (forall l', l' <> l -> heap w' !! l' = heap w !! l').
Proof.
  intros Hc Hn. unfold destroy_unique_ptr, bind. simpl.
  destruct (p =? nullptr); simpl.
  - unfold ret. destruct n as [| n].
    + rewrite (shared_ptr_release_last w l c Hc Hn).
      eexists. split_and!; [done | done | simpl; apply lookup_delete_eq |].
      intros l' Hl'. simpl. by apply lookup_delete_ne.
    + rewrite (shared_ptr_release_shared w l c n Hc Hn).
      eexists. split_and!; [done | | |].
      * simpl. repeat case_decide; try lia. by rewrite ?app_nil_r.
      * simpl. repeat case_decide; try lia. apply lookup_insert_eq.
      * intros l' Hl'. simpl. by apply lookup_insert_ne.
  - unfold call_Free. rewrite Hc. destruct n as [| n].
    + erewrite shared_ptr_release_last; [| simpl; apply lookup_insert_eq | done].
      eexists. split_and!; [done | simpl; by rewrite <- app_assoc | simpl; apply lookup_delete_eq |].
      intros l' Hl'. simpl. rewrite lookup_delete_ne, lookup_insert_ne; done.
    + erewrite shared_ptr_release_shared; [| simpl; apply lookup_insert_eq | done].
      eexists. split_and!; [done | | |].
      * simpl. repeat case_decide; try lia. by rewrite ?app_nil_r.
      * simpl. repeat case_decide; try lia. apply lookup_insert_eq.
      * intros l' Hl'. simpl. rewrite !lookup_insert_ne; done.
Qed.

(** The array helpers touch nothing but [Alloc] of their own allocator: the
    other allocators are as they were, the number of owners is unchanged, and
    the trace grows by nothing (with a null result and an unchanged world)
    or by the one [Alloc] whose result is returned. *)
Theorem AllocArray_touches_only_Alloc this (alignment nmemb size : Z) w (p : ptr) w' :
  AllocArrayWithAlignment alignment this nmemb size w = Some (p, w') \/
  AllocArray this nmemb size w = Some (p, w') ->
  (forall l, l <> this -> heap w' !! l = heap w !! l) /\
  use_count <$> heap w' !! this = use_count <$> heap w !! this /\
  ((p = nullptr /\ w' = w) \/
   (exists len, trace w' = trace w ++ [EvAlloc this len p])).
Proof.
  assert (Hgen : forall a,
    AllocArrayWithAlignment a this nmemb size w = Some (p, w') ->
    (forall l, l <> this -> heap w' !! l = heap w !! l) /\
    use_count <$> heap w' !! this = use_count <$> heap w !! this /\
    ((p = nullptr /\ w' = w) \/
     (exists len, trace w' = trace w ++ [EvAlloc this len p]))).
  2:{ intros [Hrun | Hrun]; [by apply (Hgen alignment) | by apply (Hgen 0)]. }
  intros a. unfold AllocArrayWithAlignment, bind, lift.
  destruct (CalcMemSizeForArrayWithAlignment a nmemb size None)
    as [[[] [len |]] |]; try done.
  - unfold call_Alloc.
    destruct (heap w !! this) as [c |] eqn:Hc; [| done].
    destruct (Alloc (object c) len) as [q obj]. intros [= <- <-]. simpl.
    split_and!.
    + intros l Hl. by apply lookup_insert_ne.
    + by rewrite lookup_insert_eq.
    + right. by exists len.
  - unfold ret. intros [= <- <-]. split_and!; [done | done | by left].
  - unfold ret. intros [= <- <-]. split_and!; [done | done | by left].
Qed.

(** An array of no elements, or of elements of no size, is not refused:
    the request reaches the allocator as [Alloc(0)]. *)
Theorem AllocArray_empty_reaches_Alloc this (alignment nmemb size : Z) w :
  Spec.small_alignment alignment ->
  SizeT.in_range nmemb -> SizeT.in_range size ->
  nmemb = 0 \/ size = 0 ->
  AllocArrayWithAlignment alignment this nmemb size w = call_Alloc this 0 w /\
  AllocArray this nmemb size w = call_Alloc this 0 w.
Proof.
  intros Ha Hn Hs Hzero.
  pose proof (small_alignment_bound alignment Ha) as Hab.
  assert (Hprod : nmemb * size = 0) by (destruct Hzero; subst; lia).
  assert (Hcalc : forall a, Spec.small_alignment a ->
            CalcMemSizeForArrayWithAlignment a nmemb size None = Some (true, Some 0)).
  { intros a Ha'. pose proof (small_alignment_bound a Ha').
    rewrite Calc_small, Hprod by done.
    destruct (Z.ltb_spec (SizeT.max - a) 0) as [Hlt | _].
    { change SizeT.max with (2 ^ 64 - 1) in Hlt. lia. }
    unfold Spec.round_up. destruct (Z.eqb_spec a 0); [done |].
    rewrite Z.div_small by lia. do 3 f_equal. lia. }
  split.
  - unfold AllocArrayWithAlignment, bind, lift. rewrite (Hcalc alignment Ha).
    by destruct (call_Alloc this 0 w) as [[] |].
  - unfold AllocArray, CalcMemSizeForArray, bind, lift. rewrite (Hcalc 0) by by left.
    by destruct (call_Alloc this 0 w) as [[] |].
Qed.

(** Making a handle and destroying it pairs the [Alloc] with exactly one
    [Free] of the pointer it returned (none when it returned null), on the
    same allocator; the share the parameter brought in is gone afterwards,
    so the allocator is deleted exactly when there was no other owner; and
    no other allocator is touched. *)
Theorem MakeUniquePtr_destroy_round_trip
    (T : elem_type) l (count_or_bytes len : Z) w c (n : nat) :
  heap w !! l = Some c -> use_count c = S n ->
  (if is_void T then len = count_or_bytes
   else CalcMemSizeForArray count_or_bytes (sizeof_conditional T) (Some count_or_bytes)
        = Some (true, Some len)) ->
  let r := Alloc (object c) len in
  exists h w1 w2,
    MakeUniquePtr T (Some l) count_or_bytes w = Some (h, w1) /\
    destroy_unique_ptr h w1 = Some (tt, w2) /\
    trace w2 = trace w ++ [EvAlloc l len r.1]
                       ++ (if r.1 =? nullptr then [] else [EvFree l r.1])
                       ++ (if decide (n = 0%nat) then [EvDelete l] else []) /\
    heap w2 !! l =
      (if decide (n = 0%nat) then None
       else Some (mk_ctrl (if r.1 =? nullptr then r.2 else Free r.2 r.1) n)) /\
    (forall l', l' <> l -> heap w2 !! l' = heap w !! l').
Proof.
  intros Hc Hn Hlen r.
  pose proof (MakeUniquePtr_allocates T l count_or_bytes w c n len Hc Hn Hlen) as Hmk.
  fold r in Hmk.
  set (w1 := mk_world (<[l := mk_ctrl r.2 (S n)]> (heap w))
                      (trace w ++ [EvAlloc l len r.1])) in *.
  destruct (destroy_lambda_handle w1 l (mk_ctrl r.2 (S n)) n r.1)
    as (w2 & Hd & Htr & Hl & Hframe); [apply lookup_insert_eq | done |].
  exists (mk_unique_ptr r.1 (Deleter_lambda l)), w1, w2.
  split_and!; [done | done | | done |].
  - rewrite Htr. simpl. by rewrite <- app_assoc.
  - intros l' Hl'. rewrite Hframe by done. simpl. by apply lookup_insert_ne.
Qed.

(** Two handles made from one allocator that has no other owner: destroying
    the first one frees its buffer and leaves the allocator alive for the
    second; the allocator is deleted only when the second is destroyed,
    after its buffer was freed. *)
Theorem two_handles_share_allocator
    (T1 T2 : elem_type) l (count1 count2 len1 len2 : Z) w c :
  heap w !! l = Some c -> use_count c = 2%nat ->
  (if is_void T1 then len1 = count1
   else CalcMemSizeForArray count1 (sizeof_conditional T1) (Some count1)
        = Some (true, Some len1)) ->
  (if is_void T2 then len2 = count2
   else CalcMemSizeForArray count2 (sizeof_conditional T2) (Some count2)
        = Some (true, Some len2)) ->
  exists h1 h2 w1 w2 w3 w4,
    MakeUniquePtr T1 (Some l) count1 w = Some (h1, w1) /\
    MakeUniquePtr T2 (Some l) count2 w1 = Some (h2, w2) /\
    destroy_unique_ptr h1 w2 = Some (tt, w3) /\
    trace w3 = trace w2 ++ (if get h1 =? nullptr then [] else [EvFree l (get h1)]) /\
    (exists c3, heap w3 !! l = Some c3 /\ use_count c3 = 1%nat) /\
    destroy_unique_ptr h2 w3 = Some (tt, w4) /\
    trace w4 = trace w3 ++ (if get h2 =? nullptr then [] else [EvFree l (get h2)])
                        ++ [EvDelete l] /\
    heap w4 !! l = None.
Proof.
  intros Hc Hn Hlen1 Hlen2.
  pose proof (MakeUniquePtr_allocates T1 l count1 w c 1 len1 Hc Hn Hlen1) as Hmk1.
  set (r1 := Alloc (object c) len1) in *.
  set (w1 := mk_world (<[l := mk_ctrl r1.2 2]> (heap w))
                      (trace w ++ [EvAlloc l len1 r1.1])) in *.
  assert (Hl1 : heap w1 !! l = Some (mk_ctrl r1.2 2)) by apply lookup_insert_eq.
  pose proof (MakeUniquePtr_allocates T2 l count2 w1 _ 1 len2 Hl1 eq_refl Hlen2) as Hmk2.
  simpl in Hmk2.
  set (r2 := Alloc r1.2 len2) in *.
  set (w2 := mk_world (<[l := mk_ctrl r2.2 2]> (<[l := mk_ctrl r1.2 2]> (heap w)))
                      ((trace w ++ [EvAlloc l len1 r1.1]) ++ [EvAlloc l len2 r2.1])) in *.
  assert (Hl2 : heap w2 !! l = Some (mk_ctrl r2.2 2)) by apply lookup_insert_eq.
  destruct (destroy_lambda_handle w2 l _ 1 r1.1 Hl2 eq_refl)
    as (w3 & Hd3 & Htr3 & Hl3 & _).
  simpl in Htr3, Hl3. rewrite app_nil_r in Htr3.
  destruct (destroy_lambda_handle w3 l _ 0 r2.1 Hl3 eq_refl)
    as (w4 & Hd4 & Htr4 & Hl4 & _).
  simpl in Htr4, Hl4.
  exists (mk_unique_ptr r1.1 (Deleter_lambda l)), (mk_unique_ptr r2.1 (Deleter_lambda l)),
         w1, w2, w3, w4.
  split_and!; try done. eauto.
Qed.

End AllocatorExtras.

Lemma AllocArray_touches_only_Alloc_witness :
  (forall l, l <> 1%positive ->
     heap (after_Alloc (Arena.one 1) 1%positive (mk_ctrl Arena.fresh 1) 200).2 !! l
     = heap (Arena.one 1) !! l) /\
  use_count <$> heap (after_Alloc (Arena.one 1) 1%positive (mk_ctrl Arena.fresh 1) 200).2
                  !! 1%positive
  = use_count <$> heap (Arena.one 1) !! 1%positive /\
  ((4096 = nullptr /\
    (after_Alloc (Arena.one 1) 1%positive (mk_ctrl Arena.fresh 1) 200).2 = Arena.one 1) \/
   (exists len,
      trace (after_Alloc (Arena.one 1) 1%positive (mk_ctrl Arena.fresh 1) 200).2
      = trace (Arena.one 1) ++ [EvAlloc 1%positive len 4096])).
Proof.
  apply (AllocArray_touches_only_Alloc 1%positive 0 10 20 (Arena.one 1) 4096).
  right. reflexivity.
Defined.

Lemma AllocArray_empty_reaches_Alloc_witness :
  AllocArrayWithAlignment 16 1%positive 0 SizeT.max (Arena.one 1)
    = call_Alloc 1%positive 0 (Arena.one 1) /\
  AllocArray 1%positive 0 SizeT.max (Arena.one 1) = call_Alloc 1%positive 0 (Arena.one 1).
Proof.
  apply (AllocArray_empty_reaches_Alloc 1%positive 16 0 SizeT.max (Arena.one 1)).
  - right. exists 4. split; [change (SizeT.digits / 2) with 32; lia | reflexivity].
  - unfold SizeT.in_range, SizeT.max, SizeT.modulus, SizeT.digits. lia.
  - unfold SizeT.in_range, SizeT.max, SizeT.modulus, SizeT.digits. lia.
  - by left.
Defined.

Lemma MakeUniquePtr_destroy_round_trip_witness :
  let r := Alloc (object (mk_ctrl Arena.fresh 1)) 16 in
  exists h w1 w2,
    MakeUniquePtr (T_object 4) (Some 1%positive) 4 (Arena.one 1) = Some (h, w1) /\
    destroy_unique_ptr h w1 = Some (tt, w2) /\
    trace w2 = trace (Arena.one 1) ++ [EvAlloc 1%positive 16 r.1]
                  ++ (if r.1 =? nullptr then [] else [EvFree 1%positive r.1])
                  ++ (if decide (0%nat = 0%nat) then [EvDelete 1%positive] else []) /\
    heap w2 !! 1%positive =
      (if decide (0%nat = 0%nat) then None
       else Some (mk_ctrl (if r.1 =? nullptr then r.2 else Free r.2 r.1) 0)) /\
    (forall l', l' <> 1%positive -> heap w2 !! l' = heap (Arena.one 1) !! l').
Proof.
  apply (MakeUniquePtr_destroy_round_trip (T_object 4) 1%positive 4 16 (Arena.one 1)
           (mk_ctrl Arena.fresh 1) 0); reflexivity.
Defined.

Lemma two_handles_share_allocator_witness :
  exists h1 h2 w1 w2 w3 w4,
    MakeUniquePtr (T_object 4) (Some 1%positive) 4 (Arena.one 2) = Some (h1, w1) /\
    MakeUniquePtr T_void (Some 1%positive) 100 w1 = Some (h2, w2) /\
    destroy_unique_ptr h1 w2 = Some (tt, w3) /\
    trace w3 = trace w2 ++ (if get h1 =? nullptr then [] else [EvFree 1%positive (get h1)]) /\
    (exists c3, heap w3 !! 1%positive = Some c3 /\ use_count c3 = 1%nat) /\
    destroy_unique_ptr h2 w3 = Some (tt, w4) /\
    trace w4 = trace w3 ++ (if get h2 =? nullptr then [] else [EvFree 1%positive (get h2)])
                        ++ [EvDelete 1%positive] /\
    heap w4 !! 1%positive = None.
Proof.
  apply (two_handles_share_allocator (T_object 4) T_void 1%positive 4 100 16 100
           (Arena.one 2) (mk_ctrl Arena.fresh 2)); reflexivity.
Defined.

(** ** Memory descriptors as keys *)

(** [==] is an equivalence on descriptors with non-null names. *)
Theorem OrtMemoryInfo_eq_equivalence (a b c : OrtMemoryInfo.t) (na nb nc : string) :
  OrtMemoryInfo.name a = Some na ->
  OrtMemoryInfo.name b = Some nb ->
  OrtMemoryInfo.name c = Some nc ->
  equal a a /\
  (equal a b -> equal b a) /\
  (equal a b -> equal b c -> equal a c).
Proof.
  intros Ha Hb Hc.
  rewrite (equal_iff a a na na Ha Ha), (equal_iff a b na nb Ha Hb),
          (equal_iff b a nb na Hb Ha), (equal_iff b c nb nc Hb Hc),
          (equal_iff a c na nc Ha Hc).
  split; [done |]. split.
  - intros (-> & -> & -> & ->). done.
  - intros (-> & -> & -> & ->) (-> & -> & -> & ->). done.
Qed.

Lemma OrtMemoryInfo_eq_equivalence_witness :
  equal (OrtMemoryInfo.ctor (Some "Cpu"%string) 0 OrtDevice.default 0 0)
        (OrtMemoryInfo.ctor (Some "Cpu"%string) 0 (OrtDevice.mk 1 1 4) 0 0).
Proof.
  apply (OrtMemoryInfo_eq_equivalence
           (OrtMemoryInfo.ctor (Some "Cpu"%string) 0 OrtDevice.default 0 0)
           (OrtMemoryInfo.ctor (Some "Cpu"%string) 0 (OrtDevice.mk 1 0 2) 0 0)
           (OrtMemoryInfo.ctor (Some "Cpu"%string) 0 (OrtDevice.mk 1 1 4) 0 0)
           "Cpu" "Cpu" "Cpu" eq_refl eq_refl eq_refl);
    reflexivity.
Defined.

(** [!=] agrees with the order: for non-null names it returns, it is the
    negation of [==], and it holds exactly when one descriptor is less than
    the other. *)
Theorem OrtMemoryInfo_ne_iff_ordered (a b : OrtMemoryInfo.t) (na nb : string) :
  OrtMemoryInfo.name a = Some na ->
  OrtMemoryInfo.name b = Some nb ->
  (exists r, OrtMemoryInfo.ne a b = Some r) /\
  (differ a b <-> ~ equal a b) /\
  (differ a b <-> less a b \/ less b a).
Proof.
  intros Ha Hb.
  destruct (eq_defined a b na nb Ha Hb) as [r Hr].
  assert (Hne : differ a b <-> ~ equal a b).
  { unfold differ, equal, OrtMemoryInfo.ne. rewrite Hr. simpl.
    destruct r; simpl; split; congruence. }
  split_and!; [unfold OrtMemoryInfo.ne; rewrite Hr; simpl; eauto | done |].
  rewrite Hne.
  rewrite (less_iff a b na nb Ha Hb), (less_iff b a nb na Hb Ha),
          (equal_iff a b na nb Ha Hb).
  pose proof (info_lt_total
    (OrtMemoryInfo.type a) (OrtMemoryInfo.mem_type a) (OrtMemoryInfo.id a) (CString.c_str na)
    (OrtMemoryInfo.type b) (OrtMemoryInfo.mem_type b) (OrtMemoryInfo.id b) (CString.c_str nb))
    as Htot.
  pose proof (info_lt_irrefl
    (OrtMemoryInfo.type a) (OrtMemoryInfo.mem_type a) (OrtMemoryInfo.id a) (CString.c_str na))
    as Hirr.
  split.
  - intros Hn. destruct Htot as [H | [(? & ? & ? & ?) | H]]; [by left | | by right].
    destruct Hn. done.
  - intros Hlt (Em & Et & Ei & En). rewrite <- Em, <- Et, <- Ei, <- En in Hlt. tauto.
Qed.

Lemma OrtMemoryInfo_ne_iff_ordered_witness :
  differ (OrtMemoryInfo.ctor (Some "Cpu"%string) 0 OrtDevice.default 0 0)
         (OrtMemoryInfo.ctor (Some "Cuda"%string) 0 OrtDevice.default 0 0)
  <-> ~ equal (OrtMemoryInfo.ctor (Some "Cpu"%string) 0 OrtDevice.default 0 0)
              (OrtMemoryInfo.ctor (Some "Cuda"%string) 0 OrtDevice.default 0 0).
Proof.
  apply (OrtMemoryInfo_ne_iff_ordered
           (OrtMemoryInfo.ctor (Some "Cpu"%string) 0 OrtDevice.default 0 0)
           (OrtMemoryInfo.ctor (Some "Cuda"%string) 0 OrtDevice.default 0 0)
           "Cpu" "Cuda"); reflexivity.
Defined.

(** [<] cannot tell apart descriptors that are [==]: equal descriptors may
    be exchanged on either side of a comparison. *)
Theorem OrtMemoryInfo_lt_respects_eq
    (a a' b b' : OrtMemoryInfo.t) (na na' nb nb' : string) :
  OrtMemoryInfo.name a = Some na -> OrtMemoryInfo.name a' = Some na' ->
  OrtMemoryInfo.name b = Some nb -> OrtMemoryInfo.name b' = Some nb' ->
  equal a a' -> equal b b' ->
  (less a b <-> less a' b').
Proof.
  intros Ha Ha' Hb Hb'.
  rewrite (equal_iff a a' na na' Ha Ha'), (equal_iff b b' nb nb' Hb Hb'),
          (less_iff a b na nb Ha Hb), (less_iff a' b' na' nb' Ha' Hb').
  intros (-> & -> & -> & ->) (-> & -> & -> & ->). done.
Qed.

Lemma OrtMemoryInfo_lt_respects_eq_witness :
  less (OrtMemoryInfo.ctor (Some "Cpu"%string) 0 OrtDevice.default 0 0)
       (OrtMemoryInfo.ctor (Some "Cuda"%string) 0 OrtDevice.default 0 0)
  <-> less (OrtMemoryInfo.ctor (Some "Cpu"%string) 0 (OrtDevice.mk 1 0 1) 0 0)
           (OrtMemoryInfo.ctor (Some "Cuda"%string) 0 (OrtDevice.mk 2 0 0) 0 0).
Proof.
  apply (OrtMemoryInfo_lt_respects_eq
           (OrtMemoryInfo.ctor (Some "Cpu"%string) 0 OrtDevice.default 0 0)
           (OrtMemoryInfo.ctor (Some "Cpu"%string) 0 (OrtDevice.mk 1 0 1) 0 0)
           (OrtMemoryInfo.ctor (Some "Cuda"%string) 0 OrtDevice.default 0 0)
           (OrtMemoryInfo.ctor (Some "Cuda"%string) 0 (OrtDevice.mk 2 0 0) 0 0)
           "Cpu" "Cpu" "Cuda" "Cuda"); reflexivity.
Defined.

(** The names are read last: when two descriptors differ in a tag or in the
    id, the three operators return without looking at the names, whatever
    these are, null included; the descriptors are then unequal and ordered
    one way or the other. *)
Theorem OrtMemoryInfo_tags_decide_first (a b : OrtMemoryInfo.t) :
  OrtMemoryInfo.type a <> OrtMemoryInfo.type b \/
  OrtMemoryInfo.mem_type a <> OrtMemoryInfo.mem_type b \/
  OrtMemoryInfo.id a <> OrtMemoryInfo.id b ->
  OrtMemoryInfo.eq a b = Some false /\
  OrtMemoryInfo.ne a b = Some true /\
  ((OrtMemoryInfo.lt a b = Some true /\ OrtMemoryInfo.lt b a = Some false) \/
   (OrtMemoryInfo.lt a b = Some false /\ OrtMemoryInfo.lt b a = Some true)).
Proof.
  intros Hdiff.
  assert (Heq : OrtMemoryInfo.eq a b = Some false).
  { unfold OrtMemoryInfo.eq.
    destruct (Z.eqb_spec (OrtMemoryInfo.mem_type a) (OrtMemoryInfo.mem_type b)),
             (Z.eqb_spec (OrtMemoryInfo.type a) (OrtMemoryInfo.type b)),
             (Z.eqb_spec (OrtMemoryInfo.id a) (OrtMemoryInfo.id b)); simpl; try done.
    tauto. }
  split_and!; [done | unfold OrtMemoryInfo.ne; by rewrite Heq |].
  unfold OrtMemoryInfo.lt.
  rewrite (Z.eqb_sym (OrtMemoryInfo.type b)), (Z.eqb_sym (OrtMemoryInfo.mem_type b)),
          (Z.eqb_sym (OrtMemoryInfo.id b)).
  destruct (Z.eqb_spec (OrtMemoryInfo.type a) (OrtMemoryInfo.type b)) as [Et | Et]; simpl.
  2:{ destruct (Z.ltb_spec (OrtMemoryInfo.type a) (OrtMemoryInfo.type b)),
               (Z.ltb_spec (OrtMemoryInfo.type b) (OrtMemoryInfo.type a));
        try lia; [by left | by right]. }
  destruct (Z.eqb_spec (OrtMemoryInfo.mem_type a) (OrtMemoryInfo.mem_type b)) as [Em | Em];
    simpl.
  2:{ destruct (Z.ltb_spec (OrtMemoryInfo.mem_type a) (OrtMemoryInfo.mem_type b)),
               (Z.ltb_spec (OrtMemoryInfo.mem_type b) (OrtMemoryInfo.mem_type a));
        try lia; [by left | by right]. }
  destruct (Z.eqb_spec (OrtMemoryInfo.id a) (OrtMemoryInfo.id b)) as [Ei | Ei]; simpl.
  2:{ destruct (Z.ltb_spec (OrtMemoryInfo.id a) (OrtMemoryInfo.id b)),
               (Z.ltb_spec (OrtMemoryInfo.id b) (OrtMemoryInfo.id a));
        try lia; [by left | by right]. }
  tauto.
Qed.

Lemma OrtMemoryInfo_tags_decide_first_witness :
  OrtMemoryInfo.eq (OrtMemoryInfo.ctor None 0 OrtDevice.default 0 0)
                   (OrtMemoryInfo.ctor None 1 OrtDevice.default 0 0) = Some false.
Proof.
  apply (OrtMemoryInfo_tags_decide_first
           (OrtMemoryInfo.ctor None 0 OrtDevice.default 0 0)
           (OrtMemoryInfo.ctor None 1 OrtDevice.default 0 0)).
  left. simpl. lia.
Defined.

Lemma provider_name_at (k : nat) (n : string) :
  ProviderNames.all !! k = Some n ->
  (k = 0%nat /\ n = ProviderNames.CPU) \/
  (k = 1%nat /\ n = ProviderNames.CUDA) \/
  (k = 2%nat /\ n = ProviderNames.CUDA_PINNED) \/
  (k = 3%nat /\ n = ProviderNames.TRT) \/
  (k = 4%nat /\ n = ProviderNames.TRT_PINNED).
Proof.
  intros Hk.
  do 5 (destruct k as [| k]; [injection Hk as <-; tauto |]).
  done.
Qed.

(** The names of the built-in providers are strictly increasing in the
    order of their declaration; descriptors that carry two of them with the
    same tags and id are therefore different keys, ordered like the names,
    on whatever devices. *)
Theorem provider_names_give_distinct_keys
    (i j : nat) (n1 n2 : string) (ty mt id_ : Z) (d1 d2 : OrtDevice.t) :
  ProviderNames.all !! i = Some n1 ->
  ProviderNames.all !! j = Some n2 ->
  (i < j)%nat ->
  let a := OrtMemoryInfo.ctor (Some n1) ty d1 id_ mt in
  let b := OrtMemoryInfo.ctor (Some n2) ty d2 id_ mt in
  less a b /\ ~ less b a /\ ~ equal a b.
Proof.
  intros H1 H2 Hij a b.
  assert (Hcmp : CString.strcmp n1 n2 < 0).
  { pose proof (provider_name_at i n1 H1) as Hi.
    pose proof (provider_name_at j n2 H2) as Hj.
    destruct Hi as [[-> ->] | [[-> ->] | [[-> ->] | [[-> ->] | [-> ->]]]]];
      destruct Hj as [[-> ->] | [[-> ->] | [[-> ->] | [[-> ->] | [-> ->]]]]];
      try lia; by vm_compute. }
  assert (Hlt : less a b).
  { unfold less, OrtMemoryInfo.lt, CString.strcmp_ptr. simpl.
    rewrite !Z.eqb_refl. simpl.
    destruct (Z.ltb_spec (CString.strcmp n1 n2) 0); [done | lia]. }
  split_and!; [done | |].
  - unfold less, OrtMemoryInfo.lt, CString.strcmp_ptr. simpl.
    rewrite !Z.eqb_refl. simpl. rewrite (strcmp_opp n1 n2).
    destruct (Z.ltb_spec (- CString.strcmp n1 n2) 0); [lia | done].
  - unfold equal, OrtMemoryInfo.eq, CString.strcmp_ptr. simpl.
    rewrite !Z.eqb_refl. simpl.
    destruct (Z.eqb_spec (CString.strcmp n1 n2) 0); [lia | done].
Qed.

Lemma provider_names_give_distinct_keys_witness :
  let a := OrtMemoryInfo.ctor (Some ProviderNames.CUDA) 1 OrtDevice.default 0 0 in
  let b := OrtMemoryInfo.ctor (Some ProviderNames.TRT) 1 (OrtDevice.mk 1 0 0) 0 0 in
  less a b /\ ~ less b a /\ ~ equal a b.
Proof.
  apply (provider_names_give_distinct_keys 1 3 ProviderNames.CUDA ProviderNames.TRT
           1 0 0 OrtDevice.default (OrtDevice.mk 1 0 0)).
  - reflexivity.
  - reflexivity.
  - lia.
Defined.

(** ** The rendering of a device *)

Lemma append_cons (c : ascii) (s t : string) : String c s +:+ t = String c (s +:+ t).
Proof. reflexivity. Qed.

(** Two strings that agree up to a separator occurring in neither prefix
    have the same prefix and the same rest. *)
Lemma app_separator_inj (b : ascii) (s1 : string) : forall s2 r1 r2,
  no_char b s1 -> no_char b s2 ->
  s1 +:+ String b r1 = s2 +:+ String b r2 -> s1 = s2 /\ r1 = r2.
Proof.
  induction s1 as [| c1 s1 IH]; intros [| c2 s2] r1 r2 H1 H2 Heq.
  - by injection Heq as ->.
  - rewrite append_cons in Heq. injection Heq as <- _. by destruct H2.
  - rewrite append_cons in Heq. injection Heq as -> _. by destruct H1.
  - rewrite !append_cons in Heq. injection Heq as -> Heq.
    destruct H1 as [_ H1], H2 as [_ H2].
    destruct (IH s2 r1 r2 H1 H2 Heq) as [-> ->]. done.
Qed.

Lemma pretty_N_char_not_space x : pretty_N_char x <> " "%char.
Proof. unfold pretty_N_char. by repeat case_match. Qed.

Lemma pretty_N_char_not_bracket x : pretty_N_char x <> "]"%char.
Proof. unfold pretty_N_char. by repeat case_match. Qed.

Lemma no_char_pretty_N_go (b : ascii) (x : N) : forall s,
  (forall y, pretty_N_char y <> b) ->
  no_char b s -> no_char b (pretty_N_go x s).
Proof.
  induction (N.lt_wf_0 x) as [x _ IH]; intros s Hb Hs.
  destruct (N.eq_dec x 0%N) as [-> | Hx]; [by rewrite pretty_N_go_0 |].
  rewrite pretty_N_go_step by lia.
  apply IH; [apply N.div_lt; lia | done | by split].
Qed.

(** The decimal rendering of an integer has digits and a minus sign only. *)
Lemma no_char_pretty_Z (b : ascii) (z : Z) :
  (forall y, pretty_N_char y <> b) -> b <> "-"%char ->
  no_char b (pretty z).
Proof.
  intros Hb Hdash.
  assert (Hpos : forall p, no_char b (pretty (N.pos p))).
  { intros p. unfold pretty, pretty_N. case_decide; [done |].
    by apply no_char_pretty_N_go. }
  destruct z as [| p | p]; unfold pretty, pretty_Z.
  - simpl. split; [| done]. intros <-. by apply (Hb 0%N).
  - apply Hpos.
  - change ("-" +:+ pretty p) with (String "-" (pretty (N.pos p))).
    split; [congruence | apply Hpos].
Qed.

Lemma OrtDevice_ToString_rendering (d : OrtDevice.t) :
  OrtDevice.ToString d =
    Spec.Device_rendering_tight
      (OrtDevice.device_type d) (OrtDevice.memory_type d) (OrtDevice.device_id d).
Proof.
  unfold OrtDevice.ToString, Spec.Device_rendering_tight,
    OStream.str, OStream.put_int, OStream.put_literal, OStream.empty.
  rewrite !string_app_assoc. reflexivity.
Qed.

(** The rendering of a device is unambiguous: two devices have the same
    text exactly when they are equal. *)
Theorem OrtDevice_ToString_unambiguous (a b : OrtDevice.t) :
  OrtDevice.ToString a = OrtDevice.ToString b <-> OrtDevice.eq a b = true.
Proof.
  split.
  - rewrite !OrtDevice_ToString_rendering. unfold Spec.Device_rendering_tight.
    intros H%(inj (String.append "Device: [ type:")).
    apply (app_separator_inj " ") in H as [Ht H];
      [| apply no_char_pretty_Z; [apply pretty_N_char_not_space | done] ..].
    apply (inj (String.append "memory_type:")) in H.
    apply (app_separator_inj " ") in H as [Hm H];
      [| apply no_char_pretty_Z; [apply pretty_N_char_not_space | done] ..].
    apply (inj (String.append "device_id:")) in H.
    apply (app_separator_inj "]") in H as [Hi _];
      [| apply no_char_pretty_Z; [apply pretty_N_char_not_bracket | done] ..].
    apply (inj pretty) in Ht, Hm, Hi.
    apply OrtDevice_eq_fields. done.
  - intros H%OrtDevice_eq_fields. destruct a, b. simpl in H.
    destruct H as (-> & -> & ->). done.
Qed.

(** ** Requests that reach the allocator *)

Section RequestSizes.

Context {A : Type} `{!IAllocator A}.

(** Whatever the aligned array helper returns, it asked for enough: either
    the product exceeds [max - alignment], the result is null and the world
    is untouched, or exactly one [Alloc] was made, for a length that covers
    [nmemb * size], fits a [size_t] and is a multiple of the alignment. *)
Theorem AllocArrayWithAlignment_never_undersized
    (this : loc) (alignment nmemb size : Z) (w w' : world A) (p : ptr) :
  Spec.small_alignment alignment ->
  SizeT.in_range nmemb -> SizeT.in_range size ->
  AllocArrayWithAlignment alignment this nmemb size w = Some (p, w') ->
  (SizeT.max - alignment < nmemb * size /\ p = nullptr /\ w' = w) \/
  (exists len,
     trace w' = trace w ++ [EvAlloc this len p] /\
     nmemb * size <= len <= SizeT.max /\
     (alignment = 0 -> len = nmemb * size) /\
     (0 < alignment -> (alignment | len) /\ len < nmemb * size + alignment)).
Proof.
  intros Ha Hn Hs.
  pose proof (Calc_small alignment nmemb size None Ha Hn Hs) as Hcalc.
  pose proof (Calc_result_bounds alignment nmemb size) as Hsize.
  unfold AllocArrayWithAlignment, bind, lift.
  destruct (Z.ltb_spec (SizeT.max - alignment) (nmemb * size)) as [Hov | Hfit];
    rewrite Hcalc.
  - unfold ret. intros [= <- <-]. by left.
  - specialize (Hsize _ None Ha Hn Hs Hcalc).
    unfold call_Alloc. destruct (heap w !! this) as [c |]; [| done].
    destruct (Alloc (object c) _) as [q obj]. intros [= <- <-].
    right. eexists. split; [done | exact Hsize].
Qed.

End RequestSizes.

Lemma AllocArrayWithAlignment_never_undersized_witness :
  (SizeT.max - 16 < 3 * 10 /\ 4096 = nullptr /\
   (after_Alloc (Arena.one 1) 1%positive (mk_ctrl Arena.fresh 1) 32).2 = Arena.one 1) \/
  (exists len,
     trace (after_Alloc (Arena.one 1) 1%positive (mk_ctrl Arena.fresh 1) 32).2
       = trace (Arena.one 1) ++ [EvAlloc 1%positive len 4096] /\
     3 * 10 <= len <= SizeT.max /\
     (16 = 0 -> len = 3 * 10) /\
     (0 < 16 -> (16 | len) /\ len < 3 * 10 + 16)).
Proof.
  apply (AllocArrayWithAlignment_never_undersized 1%positive 16 3 10 (Arena.one 1)).
  - right. exists 4. split; [change (SizeT.digits / 2) with 32; lia | reflexivity].
  - unfold SizeT.in_range, SizeT.max, SizeT.modulus, SizeT.digits. lia.
  - unfold SizeT.in_range, SizeT.max, SizeT.modulus, SizeT.digits. lia.
  - reflexivity.
Defined.

(** ** The rendering of a memory descriptor *)

Lemma OrtMemoryInfo_ToString_rendering (m : OrtMemoryInfo.t) (s : string) :
  OrtMemoryInfo.name m = Some s ->
  OrtMemoryInfo.ToString m =
    Some (Spec.MemoryInfo_rendering_tight (CString.c_str s)
            (OrtMemoryInfo.id m) (OrtMemoryInfo.mem_type m) (OrtMemoryInfo.type m)).
Proof.
  intros Hname.
  unfold OrtMemoryInfo.ToString, Spec.MemoryInfo_rendering_tight,
    OStream.put_c_str, OStream.str, OStream.put_int, OStream.put_literal, OStream.empty.
  rewrite Hname. simpl. rewrite !string_app_assoc. reflexivity.
Qed.

(** Descriptors that are [==] have the same text: the rendering shows the
    fields that [==] compares, the name up to its terminator, and never the
    device. *)
Theorem OrtMemoryInfo_ToString_respects_eq (a b : OrtMemoryInfo.t) (na nb : string) :
  OrtMemoryInfo.name a = Some na ->
  OrtMemoryInfo.name b = Some nb ->
  equal a b ->
  OrtMemoryInfo.ToString a = OrtMemoryInfo.ToString b /\
  exists text, OrtMemoryInfo.ToString a = Some text.
Proof.
  intros Ha Hb (Em & Et & Ei & En)%(equal_iff a b na nb Ha Hb).
  rewrite (OrtMemoryInfo_ToString_rendering a na Ha),
          (OrtMemoryInfo_ToString_rendering b nb Hb).
  rewrite Em, Et, Ei, En. eauto.
Qed.

Lemma OrtMemoryInfo_ToString_respects_eq_witness :
  OrtMemoryInfo.ToString (OrtMemoryInfo.ctor (Some "Cuda"%string) 1 OrtDevice.default 3 0)
  = OrtMemoryInfo.ToString (OrtMemoryInfo.ctor (Some "Cuda"%string) 1 (OrtDevice.mk 1 0 3) 3 0)
  /\ exists text,
       OrtMemoryInfo.ToString (OrtMemoryInfo.ctor (Some "Cuda"%string) 1 OrtDevice.default 3 0)
       = Some text.
Proof.
  apply (OrtMemoryInfo_ToString_respects_eq
           (OrtMemoryInfo.ctor (Some "Cuda"%string) 1 OrtDevice.default 3 0)
           (OrtMemoryInfo.ctor (Some "Cuda"%string) 1 (OrtDevice.mk 1 0 3) 3 0)
           "Cuda" "Cuda"); reflexivity.
Defined.
